(** * Preference-optimisation losses of torchtune (torchtune/rlhf/loss/dpo.py)

    A shallow embedding of the five loss modules [DPOLoss], [DPOPLoss],
    [RPOLoss], [RSOLoss] and [SimPOLoss] and of the part of the tensor
    library their [forward] methods call.

    - Floating-point numbers are idealised as real numbers; dtypes and
      devices are not modelled.
    - A tensor is a one-dimensional vector (the docstrings give every
      argument the shape [(batch_size)]).  It is a handle on a storage of
      the tensor store, so that the in-place update [logits += ...] and the
      sharing introduced by [detach] are visible, and it carries the
      [requires_grad] flag of autograd.
    - Elementwise operations on two tensors broadcast as the library does:
      equal sizes, or one operand of size 1; anything else raises.
    - The hyperparameters are Python floats: [self.gamma / self.beta]
      raises [ZeroDivisionError] when [self.beta] is zero. *)

From Stdlib Require Import Reals Lra Lia List Bool Arith.
Import ListNotations.
Open Scope R_scope.

(** ** The tensor library *)

Module torch.

(** The exceptions a call can raise. *)
Inductive error : Type :=
| SizeMismatch (a b : nat)
    (* RuntimeError: The size of tensor a must match the size of tensor b *)
| OutputShapeMismatch (a b : nat)
    (* RuntimeError: output with shape [a] doesn't match the broadcast shape [b] *)
| ZeroDivisionError
    (* Python: float division by zero *)
| InvalidTensor.
    (* a handle that names no storage of the store *)

Inductive result (A : Type) : Type :=
| Ok (a : A)
| Err (e : error).
Arguments Ok {A} a.
Arguments Err {A} e.

(** The store: storage number [n] is the [n]-th entry. *)
Definition Store : Type := list (list R).

Record Tensor : Type := mkTensor { storage : nat; requires_grad : bool }.

(** Computations that read and extend the store and may raise. *)
Definition M (A : Type) : Type := Store -> result (A * Store).

Definition ret {A} (a : A) : M A := fun h => Ok (a, h).

Definition bind {A B} (m : M A) (k : A -> M B) : M B :=
  fun h => match m h with
           | Ok (a, h') => k a h'
           | Err e => Err e
           end.

Definition lift {A} (r : result A) : M A :=
  fun h => match r with
           | Ok a => Ok (a, h)
           | Err e => Err e
           end.

(** The values a tensor currently holds. *)
Definition data (h : Store) (t : Tensor) : option (list R) :=
  nth_error h (storage t).

Fixpoint upd (n : nat) (d : list R) (h : Store) : Store :=
  match h, n with
  | [], _ => []
  | _ :: h', O => d :: h'
  | x :: h', S n' => x :: upd n' d h'
  end.

Definition load (t : Tensor) : M (list R) :=
  fun h => match data h t with
           | Some d => Ok (d, h)
           | None => Err InvalidTensor
           end.

Definition alloc (d : list R) (g : bool) : M Tensor :=
  fun h => Ok (mkTensor (length h) g, h ++ [d]).

Definition write (t : Tensor) (d : list R) : M unit :=
  fun h => Ok (tt, upd (storage t) d h).

Fixpoint map2 (f : R -> R -> R) (a b : list R) : list R :=
  match a, b with
  | x :: a', y :: b' => f x y :: map2 f a' b'
  | _, _ => []
  end.

(** [torch.broadcast_shapes] for one-dimensional shapes. *)
Definition broadcast_shapes (n m : nat) : result nat :=
  if (n =? m)%nat then Ok n
  else if (n =? 1)%nat then Ok m
  else if (m =? 1)%nat then Ok n
  else Err (SizeMismatch n m).

(** Broadcasting of two one-dimensional operands: equal sizes combine
    elementwise, a size-1 operand is repeated, anything else raises. *)
Definition broadcast (f : R -> R -> R) (a b : list R) : result (list R) :=
  if (length a =? length b)%nat then Ok (map2 f a b)
  else if (length a =? 1)%nat then Ok (map (f (hd 0 a)) b)
  else if (length b =? 1)%nat then Ok (map (fun x => f x (hd 0 b)) a)
  else Err (SizeMismatch (length a) (length b)).

(** Broadcasting for an in-place operation: the result must have the
    shape of the left operand. *)
Definition broadcast_to (f : R -> R -> R) (a b : list R) : result (list R) :=
  if (length b =? length a)%nat then Ok (map2 f a b)
  else if (length b =? 1)%nat then Ok (map (fun x => f x (hd 0 b)) a)
  else if (length a =? 1)%nat then Err (OutputShapeMismatch (length a) (length b))
  else Err (SizeMismatch (length a) (length b)).

Definition unop (f : R -> R) (a : Tensor) : M Tensor :=
  bind (load a) (fun da =>
  alloc (map f da) (requires_grad a)).

Definition binop (f : R -> R -> R) (a b : Tensor) : M Tensor :=
  bind (load a) (fun da =>
  bind (load b) (fun db =>
  bind (lift (broadcast f da db)) (fun d =>
  alloc d (requires_grad a || requires_grad b)))).

(** [a op= b] *)
Definition inplace (f : R -> R -> R) (a b : Tensor) : M Tensor :=
  bind (load a) (fun da =>
  bind (load b) (fun db =>
  bind (lift (broadcast_to f da db)) (fun d =>
  bind (write a d) (fun _ =>
  ret (mkTensor (storage a) (requires_grad a || requires_grad b)))))).

(** [t.shape] *)
Definition shape (t : Tensor) : M nat :=
  bind (load t) (fun d => ret (length d)).

(** [torch.zeros(n)] *)
Definition zeros (n : nat) : M Tensor := alloc (repeat 0 n) false.

(** [a - b], [a + b], [torch.maximum(a, b)] *)
Definition sub : Tensor -> Tensor -> M Tensor := binop Rminus.
Definition add : Tensor -> Tensor -> M Tensor := binop Rplus.
Definition maximum : Tensor -> Tensor -> M Tensor := binop Rmax.

(** [a += b] *)
Definition iadd : Tensor -> Tensor -> M Tensor := inplace Rplus.

(** [c * t], [t * c], [c - t] and [t - c] for a Python float [c] *)
Definition rmul (c : R) : Tensor -> M Tensor := unop (fun x => c * x).
Definition mul (t : Tensor) (c : R) : M Tensor := unop (fun x => x * c) t.
Definition rsub (c : R) : Tensor -> M Tensor := unop (fun x => c - x).
Definition subs (t : Tensor) (c : R) : M Tensor := unop (fun x => x - c) t.

(** [-t] *)
Definition neg : Tensor -> M Tensor := unop Ropp.

(** [torch.clamp(t, min=lo)] and [torch.relu(t)] *)
Definition clamp_min (t : Tensor) (lo : R) : M Tensor := unop (fun x => Rmax x lo) t.
Definition relu : Tensor -> M Tensor := unop (Rmax 0).

(** [t.detach()]: the same storage, cut from the autograd graph. *)
Definition detach (t : Tensor) : M Tensor :=
  ret (mkTensor (storage t) false).

(** [a / b] on Python floats. *)
Definition float_div (a b : R) : M R :=
  if Req_dec_T b 0 then lift (Err ZeroDivisionError) else ret (a / b).

End torch.

(** [torch.nn.functional] *)
Module F.
Import torch.

(** LogSigmoid(x) = log (1 / (1 + exp (-x))) *)
Definition log_sigmoid (x : R) : R := - ln (1 + exp (- x)).

Definition logsigmoid : Tensor -> M Tensor := unop log_sigmoid.
End F.

Notation "x <- m ;; k" := (torch.bind m (fun x => k))
  (at level 61, m at next level, right associativity).

Import torch.

(** ** The loss modules *)

Module DPOLoss.

Record t : Type := __init__
  { beta : R; label_smoothing : R; lambda_dpop : R }.

(** The constructor's default arguments. *)
Definition default : t := __init__ (1 / 10) 0 0.

Definition forward (self : t)
    (policy_chosen_logps policy_rejected_logps
     reference_chosen_logps reference_rejected_logps : Tensor)
  : M (Tensor * Tensor * Tensor) :=
  pi_logratios <- sub policy_chosen_logps policy_rejected_logps ;;
  ref_logratios <- sub reference_chosen_logps reference_rejected_logps ;;
  logits <- sub pi_logratios ref_logratios ;;
  shp <- shape policy_chosen_logps ;;
  z <- zeros shp ;;
  d <- sub reference_chosen_logps policy_chosen_logps ;;
  penalty <- maximum z d ;;
  p <- rmul (- lambda_dpop self) penalty ;;
  logits <- iadd logits p ;;
  a1 <- rmul (beta self) logits ;;
  a2 <- F.logsigmoid a1 ;;
  a3 <- neg a2 ;;
  a4 <- mul a3 (1 - label_smoothing self) ;;
  b1 <- rmul (- beta self) logits ;;
  b2 <- F.logsigmoid b1 ;;
  b3 <- mul b2 (label_smoothing self) ;;
  losses <- sub a4 b3 ;;
  c1 <- sub policy_chosen_logps reference_chosen_logps ;;
  c2 <- detach c1 ;;
  chosen_rewards <- rmul (beta self) c2 ;;
  r1 <- sub policy_rejected_logps reference_rejected_logps ;;
  r2 <- detach r1 ;;
  rejected_rewards <- rmul (beta self) r2 ;;
  ret (losses, chosen_rewards, rejected_rewards).

End DPOLoss.

Module DPOPLoss.

Record t : Type := __init__
  { beta : R; label_smoothing : R; lambda_dpop : R }.

Definition default : t := __init__ (1 / 10) 0 0.

Definition forward (self : t)
    (policy_chosen_logps policy_rejected_logps
     reference_chosen_logps reference_rejected_logps : Tensor)
  : M (Tensor * Tensor * Tensor) :=
  pi_logratios <- sub policy_chosen_logps policy_rejected_logps ;;
  ref_logratios <- sub reference_chosen_logps reference_rejected_logps ;;
  logits <- sub pi_logratios ref_logratios ;;
  positive_reg <- sub reference_chosen_logps policy_chosen_logps ;;
  a1 <- rmul (beta self) logits ;;
  a2 <- F.logsigmoid a1 ;;
  q1 <- clamp_min positive_reg 0 ;;
  q2 <- rmul (lambda_dpop self) q1 ;;
  a3 <- sub a2 q2 ;;
  losses <- neg a3 ;;
  c1 <- sub policy_chosen_logps reference_chosen_logps ;;
  c2 <- detach c1 ;;
  chosen_rewards <- rmul (beta self) c2 ;;
  r1 <- sub policy_rejected_logps reference_rejected_logps ;;
  r2 <- detach r1 ;;
  rejected_rewards <- rmul (beta self) r2 ;;
  ret (losses, chosen_rewards, rejected_rewards).

End DPOPLoss.

Module RPOLoss.

Record t : Type := __init__
  { beta : R; label_smoothing : R; rpo_alpha : R }.

Definition default : t := __init__ (1 / 10) 0 1.

Definition forward (self : t)
    (policy_chosen_logps policy_rejected_logps
     reference_chosen_logps reference_rejected_logps nll_loss : Tensor)
  : M (Tensor * Tensor * Tensor) :=
  pi_logratios <- sub policy_chosen_logps policy_rejected_logps ;;
  ref_logratios <- sub reference_chosen_logps reference_rejected_logps ;;
  logits <- sub pi_logratios ref_logratios ;;
  a1 <- rmul (beta self) logits ;;
  a2 <- F.logsigmoid a1 ;;
  a3 <- neg a2 ;;
  a4 <- mul a3 (1 - label_smoothing self) ;;
  b1 <- rmul (- beta self) logits ;;
  b2 <- F.logsigmoid b1 ;;
  b3 <- mul b2 (label_smoothing self) ;;
  losses <- sub a4 b3 ;;
  n1 <- rmul (rpo_alpha self) nll_loss ;;
  losses <- add losses n1 ;;
  c1 <- sub policy_chosen_logps reference_chosen_logps ;;
  c2 <- detach c1 ;;
  chosen_rewards <- rmul (beta self) c2 ;;
  r1 <- sub policy_rejected_logps reference_rejected_logps ;;
  r2 <- detach r1 ;;
  rejected_rewards <- rmul (beta self) r2 ;;
  ret (losses, chosen_rewards, rejected_rewards).

End RPOLoss.

Module RSOLoss.

Record t : Type := __init__ { gamma : R }.

Definition default : t := __init__ (1 / 10).

Definition forward (self : t)
    (policy_chosen_logps policy_rejected_logps
     reference_chosen_logps reference_rejected_logps : Tensor)
  : M (Tensor * Tensor * Tensor) :=
  pi_logratios <- sub policy_chosen_logps policy_rejected_logps ;;
  ref_logratios <- sub reference_chosen_logps reference_rejected_logps ;;
  logits <- sub pi_logratios ref_logratios ;;
  g <- rmul (gamma self) logits ;;
  m <- rsub 1 g ;;
  losses <- relu m ;;
  c1 <- sub policy_chosen_logps reference_chosen_logps ;;
  c2 <- detach c1 ;;
  chosen_rewards <- rmul (gamma self) c2 ;;
  r1 <- sub policy_rejected_logps reference_rejected_logps ;;
  r2 <- detach r1 ;;
  rejected_rewards <- rmul (gamma self) r2 ;;
  ret (losses, chosen_rewards, rejected_rewards).

End RSOLoss.

Module SimPOLoss.

Record t : Type := __init__
  { beta : R; gamma : R; label_smoothing : R }.

Definition default : t := __init__ 2 (1 / 2) 0.

Definition forward (self : t)
    (policy_chosen_logps policy_rejected_logps : Tensor)
  : M (Tensor * Tensor * Tensor) :=
  pi_logratios <- sub policy_chosen_logps policy_rejected_logps ;;
  gamma_logratios <- float_div (gamma self) (beta self) ;;
  logits <- subs pi_logratios gamma_logratios ;;
  a1 <- rmul (beta self) logits ;;
  a2 <- F.logsigmoid a1 ;;
  a3 <- neg a2 ;;
  a4 <- mul a3 (1 - label_smoothing self) ;;
  b1 <- rmul (- beta self) logits ;;
  b2 <- F.logsigmoid b1 ;;
  b3 <- mul b2 (label_smoothing self) ;;
  losses <- sub a4 b3 ;;
  c2 <- detach policy_chosen_logps ;;
  chosen_rewards <- rmul (beta self) c2 ;;
  r2 <- detach policy_rejected_logps ;;
  rejected_rewards <- rmul (beta self) r2 ;;
  ret (losses, chosen_rewards, rejected_rewards).

End SimPOLoss.

(** ** What a call returns *)

(** [returns m h dl dc dr]: run from the store [h], the computation [m]
    returns three tensors that hold the vectors [dl], [dc] and [dr]. *)
Definition returns (m : M (Tensor * Tensor * Tensor)) (h : Store)
    (dl dc dr : list R) : Prop :=
  exists l c r h',
    m h = Ok ((l, c, r), h')
    /\ data h' l = Some dl /\ data h' c = Some dc /\ data h' r = Some dr.

(** ** Example inputs

    The scenario of the spec: one example per vector; the policy vectors
    take part in autograd, the reference vectors do not. *)

Definition ex_store : Store := [[-1]; [-2]; [-3 / 2]; [-5 / 2]].
Definition ex_pc : Tensor := mkTensor 0 true.
Definition ex_pr : Tensor := mkTensor 1 true.
Definition ex_rc : Tensor := mkTensor 2 false.
Definition ex_rr : Tensor := mkTensor 3 false.

(** The same with a vector of negative log-likelihoods for [RPOLoss]. *)
Definition ex_nll_store : Store := ex_store ++ [[1 / 2]].
Definition ex_nll : Tensor := mkTensor 4 true.

(** ** Detached rewards

    [detached_rewards m h]: whenever [m] returns from the store [h], the
    two rewards are outside the autograd graph, and overwriting the values
    of either of them leaves the values of the loss as they are. *)
Definition detached_rewards (m : M (Tensor * Tensor * Tensor)) (h : Store)
  : Prop :=
  forall l c r h',
    m h = Ok ((l, c, r), h') ->
    requires_grad c = false /\ requires_grad r = false
    /\ (forall d, exists h'',
          write c d h' = Ok (tt, h'') /\ data h'' l = data h' l)
    /\ (forall d, exists h'',
          write r d h' = Ok (tt, h'') /\ data h'' l = data h' l).

(** ** Broadcasting of sizes

    Two sizes are compatible when they are equal or one of them is 1; the
    broadcast of compatible sizes is the one that is not 1. *)

Definition compatible (n m : nat) : Prop := n = m \/ n = 1%nat \/ m = 1%nat.

Definition bsize (n m : nat) : nat := if (n =? 1)%nat then m else n.

Definition all_compatible (n : nat) (ns : list nat) : Prop :=
  fold_right (fun m P => compatible n m /\ P) True ns.

(** Every two of the sizes are compatible. *)
Fixpoint broadcastable (ns : list nat) : Prop :=
  match ns with
  | [] => True
  | n :: ns' => all_compatible n ns' /\ broadcastable ns'
  end.

(** [broadcasts m h sizes nl nc nr]: the computation [m], whose argument
    vectors have the sizes [sizes], returns vectors of sizes [nl], [nc] and
    [nr] when the sizes are broadcastable, and raises the size error of an
    elementwise operation when they are not. *)
Definition broadcasts (m : M (Tensor * Tensor * Tensor)) (h : Store)
    (sizes : list nat) (nl nc nr : nat) : Prop :=
  (broadcastable sizes ->
   exists dl dc dr,
     returns m h dl dc dr
     /\ length dl = nl /\ length dc = nc /\ length dr = nr)
  /\ (~ broadcastable sizes -> exists a b, m h = Err (SizeMismatch a b)).

(** Vectors of different sizes: one example for the chosen policy
    log-probabilities, two for the others. *)
Definition bc_store : Store := [[-1]; [-2; -3]; [-3 / 2; -1]; [-5 / 2; -2]].

(** ** Frame of a call

    [inputs_untouched m h]: whenever [m] returns from the store [h], every
    tensor of [h] holds in the final store the values it held in [h]. *)
Definition inputs_untouched (m : M (Tensor * Tensor * Tensor)) (h : Store)
  : Prop :=
  forall l c r h',
    m h = Ok ((l, c, r), h') ->
    forall t x, data h t = Some x -> data h' t = Some x.

(** [fresh_outputs m h]: whenever [m] returns from the store [h], the three
    tensors it returns have storages of the final store that did not exist
    in [h] and are pairwise different. *)
Definition fresh_outputs (m : M (Tensor * Tensor * Tensor)) (h : Store)
  : Prop :=
  forall l c r h',
    m h = Ok ((l, c, r), h') ->
    (length h <= storage l < length h')%nat
    /\ (length h <= storage c < length h')%nat
    /\ (length h <= storage r < length h')%nat
    /\ storage l <> storage c /\ storage l <> storage r
    /\ storage c <> storage r.

(** Two examples per vector. *)
Definition ex2_store : Store :=
  [[-1; -2]; [-2; -1]; [-3 / 2; -1]; [-5 / 2; -2]].

(** Two examples for the policy, a single reference pair. *)
Definition ref1_store : Store := [[-1; -2]; [-2; -1]; [-3 / 2]; [-5 / 2]].

(** An empty batch: one tensor of no elements. *)
Definition empty_store : Store := [[]].
Definition empty_tensor : Tensor := mkTensor 0 false.

(** * Properties *)

(** ** The store *)

Lemma data_alloc_new (h : Store) (d : list R) (g : bool) :
  data (h ++ [d]) (mkTensor (length h) g) = Some d.
Proof.
  unfold data; simpl. rewrite nth_error_app2 by lia.
  now rewrite Nat.sub_diag.
Qed.

Lemma data_alloc_old (h : Store) (d : list R) (t : Tensor) (x : list R) :
  data h t = Some x -> data (h ++ [d]) t = Some x.
Proof.
  unfold data; intros H. rewrite nth_error_app1; [exact H|].
  apply nth_error_Some. congruence.
Qed.

Lemma upd_length n d h : length (upd n d h) = length h.
Proof. revert n; induction h as [|x h IH]; intros [|n]; simpl; auto. Qed.

Lemma upd_app_new (h : Store) (x d : list R) :
  upd (length h) d (h ++ [x]) = h ++ [d].
Proof. induction h as [|y h IH]; simpl; [reflexivity | now rewrite IH]. Qed.

Lemma upd_app_old (h : Store) (n : nat) (x d : list R) :
  (n < length h)%nat -> upd n d (h ++ [x]) = upd n d h ++ [x].
Proof.
  revert n; induction h as [|y h IH]; intros [|n] Hn; simpl in *; try lia; auto.
  now rewrite IH by lia.
Qed.

Lemma nth_error_upd_other (h : Store) (n m : nat) (d : list R) :
  n <> m -> nth_error (upd n d h) m = nth_error h m.
Proof.
  revert n m; induction h as [|y h IH]; intros [|n] [|m] Hn; simpl; auto; try lia.
Qed.

(** ** Elementwise operations *)

Lemma length_map2 f a b : length (map2 f a b) = Nat.min (length a) (length b).
Proof. revert b; induction a as [|x a IH]; intros [|y b]; simpl; auto. Qed.

Lemma nth_map2 f a b i :
  (i < length a)%nat -> (i < length b)%nat ->
  nth i (map2 f a b) 0 = f (nth i a 0) (nth i b 0).
Proof.
  revert b i; induction a as [|x a IH]; intros [|y b] [|i] Ha Hb;
    simpl in *; try lia; auto.
  apply IH; lia.
Qed.

Lemma nth_map_in f (a : list R) i :
  (i < length a)%nat -> nth i (map f a) 0 = f (nth i a 0).
Proof.
  revert i; induction a as [|x a IH]; intros [|i] Ha; simpl in *; try lia; auto.
  apply IH; lia.
Qed.

Lemma nth_repeat_0 n i : nth i (repeat 0 n) 0 = 0.
Proof. revert i; induction n; intros [|i]; simpl; auto. Qed.

Lemma broadcast_same f a b :
  length a = length b -> broadcast f a b = Ok (map2 f a b).
Proof. intros H. unfold broadcast. now rewrite H, Nat.eqb_refl. Qed.

Lemma broadcast_to_same f a b :
  length a = length b -> broadcast_to f a b = Ok (map2 f a b).
Proof. intros H. unfold broadcast_to. now rewrite H, Nat.eqb_refl. Qed.

(** ** One step of a computation *)

Lemma bind_ok {A B} (m : M A) (k : A -> M B) h a h' :
  m h = Ok (a, h') -> bind m k h = k a h'.
Proof. unfold bind; now intros ->. Qed.

Lemma bind_err {A B} (m : M A) (k : A -> M B) h e :
  m h = Err e -> bind m k h = Err e.
Proof. unfold bind; now intros ->. Qed.

Lemma unop_ok f a h da :
  data h a = Some da ->
  unop f a h = Ok (mkTensor (length h) (requires_grad a), h ++ [map f da]).
Proof. intros Ha. unfold unop, bind, load, alloc. now rewrite Ha. Qed.

Lemma binop_ok f a b h da db d :
  data h a = Some da -> data h b = Some db -> broadcast f da db = Ok d ->
  binop f a b h
  = Ok (mkTensor (length h) (requires_grad a || requires_grad b), h ++ [d]).
Proof.
  intros Ha Hb Hd. unfold binop, bind, load, lift, alloc.
  now rewrite Ha, Hb, Hd.
Qed.

Lemma binop_err f a b h da db e :
  data h a = Some da -> data h b = Some db -> broadcast f da db = Err e ->
  binop f a b h = Err e.
Proof.
  intros Ha Hb Hd. unfold binop, bind, load, lift.
  now rewrite Ha, Hb, Hd.
Qed.

Lemma inplace_ok f a b h da db d :
  data h a = Some da -> data h b = Some db -> broadcast_to f da db = Ok d ->
  inplace f a b h
  = Ok (mkTensor (storage a) (requires_grad a || requires_grad b),
        upd (storage a) d h).
Proof.
  intros Ha Hb Hd. unfold inplace, bind, load, lift, write, ret.
  now rewrite Ha, Hb, Hd.
Qed.

Lemma shape_ok a h da :
  data h a = Some da -> shape a h = Ok (length da, h).
Proof. intros Ha. unfold shape, bind, load, ret. now rewrite Ha. Qed.

Ltac solve_data :=
  repeat first [ apply data_alloc_new | apply data_alloc_old ]; eassumption.

Ltac solve_len :=
  repeat rewrite ?length_map2, ?length_map, ?repeat_length; lia.

Lemma float_div_ok a b h : b <> 0 -> float_div a b h = Ok (a / b, h).
Proof. intros Hb. unfold float_div. now destruct (Req_dec_T b 0). Qed.

Lemma float_div_zero a h : float_div a 0 h = Err ZeroDivisionError.
Proof. unfold float_div. destruct (Req_dec_T 0 0); [reflexivity | congruence]. Qed.

(** ** Running a [forward] on vectors of one length *)

Ltac solve_lt := repeat rewrite ?length_app, ?upd_length; simpl; lia.

Ltac norm_store :=
  cbn [storage requires_grad];
  repeat rewrite upd_app_old by solve_lt;
  rewrite ?upd_app_new.

Ltac exec1 :=
  first
    [ erewrite bind_ok by (eapply unop_ok; solve_data)
    | erewrite bind_ok by
        (eapply binop_ok; [solve_data | solve_data | apply broadcast_same; solve_len])
    | erewrite bind_ok by
        (eapply inplace_ok; [solve_data | solve_data | apply broadcast_to_same; solve_len])
    | erewrite bind_ok by (eapply shape_ok; solve_data)
    | erewrite bind_ok by (apply float_div_ok; assumption)
    | erewrite bind_ok by reflexivity ];
  cbv beta; norm_store.

Ltac run :=
  unfold returns; do 4 eexists; split; [repeat exec1; reflexivity|];
  split; [solve_data|]; split; [solve_data|]; solve_data.

Ltac nth_simpl :=
  repeat first [ rewrite nth_map2 by solve_len
               | rewrite nth_map_in by solve_len
               | rewrite nth_repeat_0 ].

Ltac run_values :=
  do 3 eexists; split; [run|];
  repeat split; try solve_len; nth_simpl; reflexivity.

Local Notation "v .[ i ]" := (nth i v 0) (at level 1, format "v .[ i ]").

Section EqualLengths.
Variables (h : Store) (pc pr rc rr : Tensor) (dpc dpr drc drr : list R).
Hypothesis Hpc : data h pc = Some dpc.
Hypothesis Hpr : data h pr = Some dpr.
Hypothesis Hrc : data h rc = Some drc.
Hypothesis Hrr : data h rr = Some drr.
Hypothesis Lpr : length dpr = length dpc.
Hypothesis Lrc : length drc = length dpc.
Hypothesis Lrr : length drr = length dpc.

Lemma DPOLoss_run (self : DPOLoss.t) :
  exists dl dc dr,
    returns (DPOLoss.forward self pc pr rc rr) h dl dc dr
    /\ length dl = length dpc /\ length dc = length dpc /\ length dr = length dpc
    /\ forall i, (i < length dpc)%nat ->
         let logits :=
           (dpc.[i] - dpr.[i]) - (drc.[i] - drr.[i])
           + - DPOLoss.lambda_dpop self * Rmax 0 (drc.[i] - dpc.[i]) in
         dl.[i]
         = - F.log_sigmoid (DPOLoss.beta self * logits)
             * (1 - DPOLoss.label_smoothing self)
           - F.log_sigmoid (- DPOLoss.beta self * logits)
             * DPOLoss.label_smoothing self
         /\ dc.[i] = DPOLoss.beta self * (dpc.[i] - drc.[i])
         /\ dr.[i] = DPOLoss.beta self * (dpr.[i] - drr.[i]).
Proof. unfold DPOLoss.forward. run_values. Qed.

Lemma DPOPLoss_run (self : DPOPLoss.t) :
  exists dl dc dr,
    returns (DPOPLoss.forward self pc pr rc rr) h dl dc dr
    /\ length dl = length dpc /\ length dc = length dpc /\ length dr = length dpc
    /\ forall i, (i < length dpc)%nat ->
         let logits := (dpc.[i] - dpr.[i]) - (drc.[i] - drr.[i]) in
         dl.[i]
         = - (F.log_sigmoid (DPOPLoss.beta self * logits)
              - DPOPLoss.lambda_dpop self * Rmax (drc.[i] - dpc.[i]) 0)
         /\ dc.[i] = DPOPLoss.beta self * (dpc.[i] - drc.[i])
         /\ dr.[i] = DPOPLoss.beta self * (dpr.[i] - drr.[i]).
Proof. unfold DPOPLoss.forward. run_values. Qed.

Lemma RSOLoss_run (self : RSOLoss.t) :
  exists dl dc dr,
    returns (RSOLoss.forward self pc pr rc rr) h dl dc dr
    /\ length dl = length dpc /\ length dc = length dpc /\ length dr = length dpc
    /\ forall i, (i < length dpc)%nat ->
         let logits := (dpc.[i] - dpr.[i]) - (drc.[i] - drr.[i]) in
         dl.[i] = Rmax 0 (1 - RSOLoss.gamma self * logits)
         /\ dc.[i] = RSOLoss.gamma self * (dpc.[i] - drc.[i])
         /\ dr.[i] = RSOLoss.gamma self * (dpr.[i] - drr.[i]).
Proof. unfold RSOLoss.forward. run_values. Qed.

Variables (nll : Tensor) (dnll : list R).
Hypothesis Hnll : data h nll = Some dnll.
Hypothesis Lnll : length dnll = length dpc.

Lemma RPOLoss_run (self : RPOLoss.t) :
  exists dl dc dr,
    returns (RPOLoss.forward self pc pr rc rr nll) h dl dc dr
    /\ length dl = length dpc /\ length dc = length dpc /\ length dr = length dpc
    /\ forall i, (i < length dpc)%nat ->
         let logits := (dpc.[i] - dpr.[i]) - (drc.[i] - drr.[i]) in
         dl.[i]
         = - F.log_sigmoid (RPOLoss.beta self * logits)
             * (1 - RPOLoss.label_smoothing self)
           - F.log_sigmoid (- RPOLoss.beta self * logits)
             * RPOLoss.label_smoothing self
           + RPOLoss.rpo_alpha self * dnll.[i]
         /\ dc.[i] = RPOLoss.beta self * (dpc.[i] - drc.[i])
         /\ dr.[i] = RPOLoss.beta self * (dpr.[i] - drr.[i]).
Proof. unfold RPOLoss.forward. run_values. Qed.

End EqualLengths.

Lemma SimPOLoss_run (self : SimPOLoss.t) h pc pr dpc dpr :
  data h pc = Some dpc -> data h pr = Some dpr ->
  length dpr = length dpc ->
  SimPOLoss.beta self <> 0 ->
  exists dl dc dr,
    returns (SimPOLoss.forward self pc pr) h dl dc dr
    /\ length dl = length dpc /\ length dc = length dpc /\ length dr = length dpc
    /\ forall i, (i < length dpc)%nat ->
         let logits :=
           (dpc.[i] - dpr.[i]) - SimPOLoss.gamma self / SimPOLoss.beta self in
         dl.[i]
         = - F.log_sigmoid (SimPOLoss.beta self * logits)
             * (1 - SimPOLoss.label_smoothing self)
           - F.log_sigmoid (- SimPOLoss.beta self * logits)
             * SimPOLoss.label_smoothing self
         /\ dc.[i] = SimPOLoss.beta self * dpc.[i]
         /\ dr.[i] = SimPOLoss.beta self * dpr.[i].
Proof. intros Hpc Hpr Lpr Hb. unfold SimPOLoss.forward. run_values. Qed.

Lemma log_sigmoid_0 : F.log_sigmoid 0 = - ln 2.
Proof.
  unfold F.log_sigmoid. rewrite Ropp_0, exp_0.
  now replace (1 + 1) with 2 by lra.
Qed.

(** ** Reading a successful run backwards *)

Lemma bind_inv {A B} (m : M A) (k : A -> M B) h r :
  bind m k h = Ok r -> exists a h1, m h = Ok (a, h1) /\ k a h1 = Ok r.
Proof.
  unfold bind. destruct (m h) as [[a h1]|e]; [|discriminate].
  intros H. now exists a, h1.
Qed.

Lemma alloc_inv d g h t h' :
  alloc d g h = Ok (t, h') ->
  t = mkTensor (length h) g /\ length h' = S (length h).
Proof.
  unfold alloc. intros [= <- <-].
  split; [reflexivity|]. rewrite length_app. simpl. lia.
Qed.

Lemma unop_inv f a h t h' :
  unop f a h = Ok (t, h') ->
  t = mkTensor (length h) (requires_grad a) /\ length h' = S (length h).
Proof.
  unfold unop, bind, load. destruct (data h a); [|discriminate].
  apply alloc_inv.
Qed.

Lemma binop_inv f a b h t h' :
  binop f a b h = Ok (t, h') ->
  t = mkTensor (length h) (requires_grad a || requires_grad b)
  /\ length h' = S (length h).
Proof.
  unfold binop, bind, load, lift.
  destruct (data h a); [|discriminate]. destruct (data h b); [|discriminate].
  destruct (broadcast f l l0); [|discriminate]. apply alloc_inv.
Qed.

Lemma inplace_inv f a b h t h' :
  inplace f a b h = Ok (t, h') ->
  t = mkTensor (storage a) (requires_grad a || requires_grad b)
  /\ length h' = length h.
Proof.
  unfold inplace, bind, load, lift, write, ret.
  destruct (data h a); [|discriminate]. destruct (data h b); [|discriminate].
  destruct (broadcast_to f l l0); [|discriminate].
  intros [= <- <-]. split; [reflexivity | apply upd_length].
Qed.

Lemma shape_inv a h n h' : shape a h = Ok (n, h') -> h' = h.
Proof.
  unfold shape, bind, load, ret. destruct (data h a); [|discriminate].
  now intros [= _ <-].
Qed.

Lemma detach_inv a h t h' :
  detach a h = Ok (t, h') -> t = mkTensor (storage a) false /\ h' = h.
Proof. unfold detach, ret. now intros [= <- <-]. Qed.

Lemma float_div_inv a b h x h' : float_div a b h = Ok (x, h') -> h' = h.
Proof.
  unfold float_div, lift, ret. destruct (Req_dec_T b 0); [discriminate|].
  now intros [= _ <-].
Qed.

Lemma write_other (c l : Tensor) (d : list R) (h : Store) :
  storage c <> storage l ->
  exists h', write c d h = Ok (tt, h') /\ data h' l = data h l.
Proof.
  intros Hne. eexists. split; [reflexivity|].
  unfold data. now apply nth_error_upd_other.
Qed.

Ltac invert_step H :=
  let E := fresh "E" in
  apply bind_inv in H; destruct H as (? & ? & E & H);
  first
    [ apply binop_inv in E; destruct E as [? E]; subst
    | apply unop_inv in E; destruct E as [? E]; subst
    | apply inplace_inv in E; destruct E as [? E]; subst
    | apply alloc_inv in E; destruct E as [? E]; subst
    | apply detach_inv in E; destruct E as [? ?]; subst
    | apply shape_inv in E; subst
    | apply float_div_inv in E; subst ].

Ltac invert_run H :=
  repeat invert_step H;
  unfold ret in H; injection H as ? ? ? ?; subst;
  cbn [storage requires_grad] in *.

Ltac solve_detached :=
  repeat split; try reflexivity;
  intros; apply write_other; cbn [storage]; lia.

(** ** Running a [forward] on vectors of any sizes *)

Lemma broadcast_shape f a b :
  match broadcast_shapes (length a) (length b) with
  | Ok s => exists d, broadcast f a b = Ok d /\ length d = s
  | Err e => broadcast f a b = Err e
  end.
Proof.
  unfold broadcast_shapes, broadcast.
  destruct (Nat.eqb_spec (length a) (length b)) as [E|E].
  - eexists. split; [reflexivity|]. rewrite length_map2, E. apply Nat.min_id.
  - destruct (Nat.eqb_spec (length a) 1) as [Ea|Ea].
    + eexists. split; [reflexivity|]. apply length_map.
    + destruct (Nat.eqb_spec (length b) 1) as [Eb|Eb].
      * eexists. split; [reflexivity|]. apply length_map.
      * reflexivity.
Qed.

Lemma binop_shape f a b h da db :
  data h a = Some da -> data h b = Some db ->
  match broadcast_shapes (length da) (length db) with
  | Ok s =>
      exists d,
        binop f a b h
        = Ok (mkTensor (length h) (requires_grad a || requires_grad b), h ++ [d])
        /\ length d = s
  | Err e => binop f a b h = Err e
  end.
Proof.
  intros Ha Hb. pose proof (broadcast_shape f da db) as S.
  destruct (broadcast_shapes (length da) (length db)) as [s|e].
  - destruct S as (d & E & Hl). exists d. split; [|exact Hl].
    now apply binop_ok with (da := da) (db := db).
  - now apply binop_err with (da := da) (db := db).
Qed.

Lemma inplace_shape f a b h da db :
  data h a = Some da -> data h b = Some db ->
  length db = length da \/ length db = 1%nat ->
  exists d,
    inplace f a b h
    = Ok (mkTensor (storage a) (requires_grad a || requires_grad b),
          upd (storage a) d h)
    /\ length d = length da.
Proof.
  intros Ha Hb Hl.
  assert (exists d, broadcast_to f da db = Ok d /\ length d = length da)
    as (d & E & Hd).
  { unfold broadcast_to. destruct (Nat.eqb_spec (length db) (length da)) as [E|E].
    - eexists. split; [reflexivity|]. rewrite length_map2, E. apply Nat.min_id.
    - destruct (Nat.eqb_spec (length db) 1) as [E1|E1]; [|lia].
      eexists. split; [reflexivity|]. apply length_map. }
  exists d. split; [|exact Hd]. now apply inplace_ok with (da := da) (db := db).
Qed.

(** Size facts are settled oldest first, one comparison at a time, so that
    the arithmetic only ever sees equalities and disequalities. *)
Ltac settle_sizes :=
  rewrite ?length_map, ?repeat_length in *;
  unfold broadcast_shapes in *;
  repeat match reverse goal with
         | H : Ok ?x = Ok ?s |- _ => is_var s; injection H as H; subst s
         | H : Err _ = Err ?e |- _ => is_var e; injection H as H; subst e
         | H : Ok _ = Err _ |- _ => discriminate H
         | H : Err _ = Ok _ |- _ => discriminate H
         | H : context [Nat.eqb ?a ?b] |- _ =>
             destruct (Nat.eqb_spec a b); try (exfalso; lia)
         end.

Lemma all_compatible_In n ns :
  all_compatible n ns -> forall m, In m ns -> compatible n m.
Proof.
  induction ns as [|k ns IH]; simpl; [tauto|].
  intros [Hk Hns] m [<- | Hm]; auto.
Qed.

Lemma compatible_sym n m : compatible n m -> compatible m n.
Proof. unfold compatible. intuition. Qed.

Lemma broadcastable_In ns :
  broadcastable ns -> forall n m, In n ns -> In m ns -> compatible n m.
Proof.
  induction ns as [|k ns IH]; simpl; [tauto|].
  intros [Hk Hns] n m [<- | Hn] [<- | Hm]; auto.
  - now left.
  - now apply all_compatible_In with (ns := ns).
  - apply compatible_sym. now apply all_compatible_In with (ns := ns).
Qed.

(** Two of the sizes are incompatible: try every pair. *)
Ltac refute_broadcastable H :=
  match type of H with
  | broadcastable ?ns =>
      let rec outer l :=
        lazymatch l with
        | ?x :: ?l' => first [ inner x l' | outer l' ]
        end
      with inner x l :=
        lazymatch l with
        | ?y :: ?l' =>
            first
              [ solve
                  [ let C := fresh "C" in
                    assert (C : compatible x y)
                      by (apply (broadcastable_In ns H); simpl; tauto);
                    unfold compatible in C; lia ]
              | inner x l' ]
        end
      in outer ns
  end.

Ltac solve_bsize :=
  unfold bsize;
  repeat match goal with
         | |- context [Nat.eqb ?a ?b] =>
             destruct (Nat.eqb_spec a b); try lia
         end;
  try lia.

Ltac solve_broadcastable :=
  cbn [broadcastable all_compatible fold_right]; unfold compatible;
  repeat split; lia.

Ltac bstep :=
  match goal with
  | |- context [bind (binop ?f ?a ?b) _ ?h] =>
      let S := fresh "S" in
      let s := fresh "s" in
      let e := fresh "e" in
      let Hs := fresh "Hs" in
      let d := fresh "d" in
      let E := fresh "E" in
      let Hl := fresh "Hl" in
      epose proof (binop_shape f a b h _ _ ltac:(solve_data) ltac:(solve_data)) as S;
      match type of S with
      | match ?b with _ => _ end =>
          destruct b as [s|e] eqn:Hs;
          [ destruct S as (d & E & Hl);
            rewrite (bind_ok _ _ _ _ _ E); clear E; cbv beta
          | rewrite (bind_err _ _ _ _ S); clear S; right;
            split; [ let Hb := fresh "Hb" in
                    intro Hb; settle_sizes; refute_broadcastable Hb
                  | settle_sizes; eauto ] ]
      end
  | |- context [bind (inplace ?f ?a ?b) _ ?h] =>
      let d := fresh "d" in
      let E := fresh "E" in
      let Hl := fresh "Hl" in
      edestruct (inplace_shape f a b h) as (d & E & Hl);
      [ solve_data | solve_data | settle_sizes; lia
      | rewrite (bind_ok _ _ _ _ _ E); clear E; cbv beta; norm_store ]
  | |- context [bind (unop ?f ?a) _ ?h] =>
      erewrite bind_ok by (eapply unop_ok; solve_data); cbv beta
  | |- context [bind (shape ?a) _ ?h] =>
      erewrite bind_ok by (eapply shape_ok; solve_data); cbv beta
  | |- context [bind (float_div ?a ?b) _ ?h] =>
      erewrite bind_ok by (apply float_div_ok; assumption); cbv beta
  | |- context [bind _ _ ?h] =>
      erewrite bind_ok by reflexivity; cbv beta; cbn [storage requires_grad]
  end.

Ltac unfold_ops :=
  unfold sub, add, maximum, iadd, rmul, mul, rsub, subs, neg, clamp_min, relu,
    F.logsigmoid.

Ltac returns_sizes :=
  left; split;
  [ settle_sizes; solve_broadcastable
  | do 7 eexists; split; [reflexivity|];
    split; [solve_data|]; split; [solve_data|]; split; [solve_data|];
    settle_sizes; repeat split; solve_bsize ].

Lemma broadcasts_intro m h sizes nl nc nr :
  (broadcastable sizes
   /\ exists l c r h' dl dc dr,
       m h = Ok ((l, c, r), h')
       /\ data h' l = Some dl /\ data h' c = Some dc /\ data h' r = Some dr
       /\ length dl = nl /\ length dc = nc /\ length dr = nr)
  \/ (~ broadcastable sizes /\ exists a b, m h = Err (SizeMismatch a b)) ->
  broadcasts m h sizes nl nc nr.
Proof.
  intros [[Hb H] | [Hb H]]; split; intros Hb'; try assumption;
    try contradiction.
  destruct H as (l & c & r & h' & dl & dc & dr & E & Hl & Hc & Hr & Hs).
  exists dl, dc, dr. split; [|exact Hs]. now exists l, c, r, h'.
Qed.

Section AnySizes.
Variables (h : Store) (pc pr rc rr : Tensor) (dpc dpr drc drr : list R).
Hypothesis Hpc : data h pc = Some dpc.
Hypothesis Hpr : data h pr = Some dpr.
Hypothesis Hrc : data h rc = Some drc.
Hypothesis Hrr : data h rr = Some drr.

Lemma DPOLoss_broadcasts (self : DPOLoss.t) :
  broadcasts (DPOLoss.forward self pc pr rc rr) h
    [length dpc; length dpr; length drc; length drr]
    (bsize (length dpc) (bsize (length dpr) (bsize (length drc) (length drr))))
    (bsize (length dpc) (length drc))
    (bsize (length dpr) (length drr)).
Proof.
  apply broadcasts_intro. unfold DPOLoss.forward. unfold_ops.
  repeat bstep. returns_sizes.
Qed.

Lemma DPOPLoss_broadcasts (self : DPOPLoss.t) :
  broadcasts (DPOPLoss.forward self pc pr rc rr) h
    [length dpc; length dpr; length drc; length drr]
    (bsize (length dpc) (bsize (length dpr) (bsize (length drc) (length drr))))
    (bsize (length dpc) (length drc))
    (bsize (length dpr) (length drr)).
Proof.
  apply broadcasts_intro. unfold DPOPLoss.forward. unfold_ops.
  repeat bstep. returns_sizes.
Qed.

Lemma RSOLoss_broadcasts (self : RSOLoss.t) :
  broadcasts (RSOLoss.forward self pc pr rc rr) h
    [length dpc; length dpr; length drc; length drr]
    (bsize (length dpc) (bsize (length dpr) (bsize (length drc) (length drr))))
    (bsize (length dpc) (length drc))
    (bsize (length dpr) (length drr)).
Proof.
  apply broadcasts_intro. unfold RSOLoss.forward. unfold_ops.
  repeat bstep. returns_sizes.
Qed.

Lemma SimPOLoss_broadcasts (self : SimPOLoss.t) :
  SimPOLoss.beta self <> 0 ->
  broadcasts (SimPOLoss.forward self pc pr) h
    [length dpc; length dpr]
    (bsize (length dpc) (length dpr)) (length dpc) (length dpr).
Proof.
  intros Hb. apply broadcasts_intro. unfold SimPOLoss.forward. unfold_ops.
  repeat bstep. returns_sizes.
Qed.

Variables (nll : Tensor) (dnll : list R).
Hypothesis Hnll : data h nll = Some dnll.

Lemma RPOLoss_broadcasts (self : RPOLoss.t) :
  broadcasts (RPOLoss.forward self pc pr rc rr nll) h
    [length dpc; length dpr; length drc; length drr; length dnll]
    (bsize (length dpc)
       (bsize (length dpr)
          (bsize (length drc) (bsize (length drr) (length dnll)))))
    (bsize (length dpc) (length drc))
    (bsize (length dpr) (length drr)).
Proof.
  apply broadcasts_intro. unfold RPOLoss.forward. unfold_ops.
  repeat bstep. returns_sizes.
Qed.

End AnySizes.

(** * The claims *)

(** C1. On four vectors of one length, [DPOLoss.forward] returns, for each
    example [i], the smoothed logistic loss of [beta * logits], where
    [logits] is the difference of the policy and reference log-ratios
    less [lambda_dpop] times [max 0 (reference_chosen - policy_chosen)],
    together with the two rewards [beta * (policy - reference)].  With
    [lambda_dpop = 0] the logits are those of plain DPO. *)
Theorem DPOLoss_forward_formula (self : DPOLoss.t) (h : Store)
    (pc pr rc rr : Tensor) (dpc dpr drc drr : list R) :
  data h pc = Some dpc -> data h pr = Some dpr ->
  data h rc = Some drc -> data h rr = Some drr ->
  length dpr = length dpc -> length drc = length dpc -> length drr = length dpc ->
  exists dl dc dr,
    returns (DPOLoss.forward self pc pr rc rr) h dl dc dr
    /\ length dl = length dpc /\ length dc = length dpc /\ length dr = length dpc
    /\ forall i, (i < length dpc)%nat ->
         let logits :=
           (dpc.[i] - dpr.[i]) - (drc.[i] - drr.[i])
           - DPOLoss.lambda_dpop self * Rmax 0 (drc.[i] - dpc.[i]) in
         dl.[i]
         = - F.log_sigmoid (DPOLoss.beta self * logits)
             * (1 - DPOLoss.label_smoothing self)
           - F.log_sigmoid (- DPOLoss.beta self * logits)
             * DPOLoss.label_smoothing self
         /\ (DPOLoss.lambda_dpop self = 0 ->
             logits = (dpc.[i] - dpr.[i]) - (drc.[i] - drr.[i]))
         /\ dc.[i] = DPOLoss.beta self * (dpc.[i] - drc.[i])
         /\ dr.[i] = DPOLoss.beta self * (dpr.[i] - drr.[i]).
Proof.
  intros Hpc Hpr Hrc Hrr L1 L2 L3.
  destruct (DPOLoss_run h pc pr rc rr dpc dpr drc drr Hpc Hpr Hrc Hrr L1 L2 L3 self)
    as (dl & dc & dr & Hret & Hl & Hc & Hr & Hv).
  exists dl, dc, dr. repeat (split; [assumption|]).
  intros i Hi. destruct (Hv i Hi) as (E1 & E2 & E3). cbv zeta in *.
  repeat split; try assumption.
  - rewrite E1.
    match goal with
    | |- context [?a - DPOLoss.lambda_dpop self * ?m] =>
        replace (a - DPOLoss.lambda_dpop self * m)
          with (a + - DPOLoss.lambda_dpop self * m) by ring
    end.
    reflexivity.
  - intros ->. ring.
Qed.

Lemma DPOLoss_forward_formula_witness :
  exists dl dc dr,
    returns (DPOLoss.forward DPOLoss.default ex_pc ex_pr ex_rc ex_rr)
      ex_store dl dc dr
    /\ length dl = 1%nat
    /\ dc.[0] = 1 / 10 * (-1 - -3 / 2).
Proof.
  destruct (DPOLoss_forward_formula DPOLoss.default ex_store
              ex_pc ex_pr ex_rc ex_rr [-1] [-2] [-3 / 2] [-5 / 2]
              eq_refl eq_refl eq_refl eq_refl eq_refl eq_refl eq_refl)
    as (dl & dc & dr & Hret & Hl & _ & _ & Hv).
  exists dl, dc, dr. split; [exact Hret|]. split; [exact Hl|].
  exact (proj1 (proj2 (proj2 (Hv 0%nat (Nat.lt_0_succ 0))))).
Defined.

(** C2 (as stated, refuted).  [DPOLoss.forward] is given one chosen policy
    log-probability and two of each of the others: it reports no error
    and returns two losses and two rewards of each kind, the single value
    [-1] repeated against both reference values. *)
Lemma DPOLoss_broadcasts_silently :
  data bc_store ex_pc = Some [-1]
  /\ data bc_store ex_pr = Some [-2; -3]
  /\ data bc_store ex_rc = Some [-3 / 2; -1]
  /\ data bc_store ex_rr = Some [-5 / 2; -2]
  /\ exists dl,
      returns (DPOLoss.forward DPOLoss.default ex_pc ex_pr ex_rc ex_rr)
        bc_store dl
        [1 / 10 * (-1 - -3 / 2); 1 / 10 * (-1 - -1)]
        [1 / 10 * (-2 - -5 / 2); 1 / 10 * (-3 - -2)]
      /\ length dl = 2%nat.
Proof.
  repeat (split; [reflexivity|]).
  eexists. split.
  - do 4 eexists. split; [reflexivity|].
    split; [reflexivity|]. split; reflexivity.
  - reflexivity.
Qed.

(** C2 (amended).  None of the five [forward]s checks the sizes of its
    arguments; the elementwise operations broadcast them.  When every two
    of the sizes are equal or one of them is 1, [forward] returns: the loss
    has the broadcast of all the sizes, each reward the broadcast of the
    sizes of its two vectors.  Otherwise an elementwise operation raises
    its size error.  ([SimPOLoss], for [beta <> 0].) *)
Theorem forward_broadcasts :
  (forall self h pc pr rc rr dpc dpr drc drr,
      data h pc = Some dpc -> data h pr = Some dpr ->
      data h rc = Some drc -> data h rr = Some drr ->
      broadcasts (DPOLoss.forward self pc pr rc rr) h
        [length dpc; length dpr; length drc; length drr]
        (bsize (length dpc)
           (bsize (length dpr) (bsize (length drc) (length drr))))
        (bsize (length dpc) (length drc))
        (bsize (length dpr) (length drr)))
  /\ (forall self h pc pr rc rr dpc dpr drc drr,
      data h pc = Some dpc -> data h pr = Some dpr ->
      data h rc = Some drc -> data h rr = Some drr ->
      broadcasts (DPOPLoss.forward self pc pr rc rr) h
        [length dpc; length dpr; length drc; length drr]
        (bsize (length dpc)
           (bsize (length dpr) (bsize (length drc) (length drr))))
        (bsize (length dpc) (length drc))
        (bsize (length dpr) (length drr)))
  /\ (forall self h pc pr rc rr nll dpc dpr drc drr dnll,
      data h pc = Some dpc -> data h pr = Some dpr ->
      data h rc = Some drc -> data h rr = Some drr ->
      data h nll = Some dnll ->
      broadcasts (RPOLoss.forward self pc pr rc rr nll) h
        [length dpc; length dpr; length drc; length drr; length dnll]
        (bsize (length dpc)
           (bsize (length dpr)
              (bsize (length drc) (bsize (length drr) (length dnll)))))
        (bsize (length dpc) (length drc))
        (bsize (length dpr) (length drr)))
  /\ (forall self h pc pr rc rr dpc dpr drc drr,
      data h pc = Some dpc -> data h pr = Some dpr ->
      data h rc = Some drc -> data h rr = Some drr ->
      broadcasts (RSOLoss.forward self pc pr rc rr) h
        [length dpc; length dpr; length drc; length drr]
        (bsize (length dpc)
           (bsize (length dpr) (bsize (length drc) (length drr))))
        (bsize (length dpc) (length drc))
        (bsize (length dpr) (length drr)))
  /\ (forall self h pc pr dpc dpr,
      data h pc = Some dpc -> data h pr = Some dpr ->
      SimPOLoss.beta self <> 0 ->
      broadcasts (SimPOLoss.forward self pc pr) h
        [length dpc; length dpr]
        (bsize (length dpc) (length dpr)) (length dpc) (length dpr)).
Proof.
  split; [|split; [|split; [|split]]].
  - intros self h pc pr rc rr dpc dpr drc drr Hpc Hpr Hrc Hrr.
    now apply DPOLoss_broadcasts.
  - intros self h pc pr rc rr dpc dpr drc drr Hpc Hpr Hrc Hrr.
    now apply DPOPLoss_broadcasts.
  - intros self h pc pr rc rr nll dpc dpr drc drr dnll Hpc Hpr Hrc Hrr Hnll.
    now apply RPOLoss_broadcasts.
  - intros self h pc pr rc rr dpc dpr drc drr Hpc Hpr Hrc Hrr.
    now apply RSOLoss_broadcasts.
  - intros self h pc pr dpc dpr Hpc Hpr Hb.
    now apply SimPOLoss_broadcasts.
Qed.

Lemma forward_broadcasts_witness :
  broadcastable [1; 2; 2; 2]%nat
  /\ exists dl dc dr,
      returns (DPOLoss.forward DPOLoss.default ex_pc ex_pr ex_rc ex_rr)
        bc_store dl dc dr
      /\ length dl = 2%nat /\ length dc = 2%nat /\ length dr = 2%nat.
Proof.
  assert (Hb : broadcastable [1; 2; 2; 2]%nat).
  { cbn. unfold compatible. repeat split; auto. }
  split; [exact Hb|].
  exact (proj1 (proj1 forward_broadcasts DPOLoss.default bc_store
                  ex_pc ex_pr ex_rc ex_rr [-1] [-2; -3] [-3 / 2; -1] [-5 / 2; -2]
                  eq_refl eq_refl eq_refl eq_refl) Hb).
Defined.

(** C3. On four vectors of one length, [DPOPLoss.forward] returns, for
    each example [i], the single-term loss
    [-(log_sigmoid (beta * logits) - lambda_dpop * max 0 (reference_chosen - policy_chosen))]
    with the plain DPO logits: the clamp sits inside the loss term, the
    label smoothing does not occur, and the rewards are those of DPO. *)
Theorem DPOPLoss_forward_formula (self : DPOPLoss.t) (h : Store)
    (pc pr rc rr : Tensor) (dpc dpr drc drr : list R) :
  data h pc = Some dpc -> data h pr = Some dpr ->
  data h rc = Some drc -> data h rr = Some drr ->
  length dpr = length dpc -> length drc = length dpc -> length drr = length dpc ->
  exists dl dc dr,
    returns (DPOPLoss.forward self pc pr rc rr) h dl dc dr
    /\ length dl = length dpc /\ length dc = length dpc /\ length dr = length dpc
    /\ forall i, (i < length dpc)%nat ->
         let logits := (dpc.[i] - dpr.[i]) - (drc.[i] - drr.[i]) in
         dl.[i]
         = - (F.log_sigmoid (DPOPLoss.beta self * logits)
              - DPOPLoss.lambda_dpop self * Rmax 0 (drc.[i] - dpc.[i]))
         /\ dc.[i] = DPOPLoss.beta self * (dpc.[i] - drc.[i])
         /\ dr.[i] = DPOPLoss.beta self * (dpr.[i] - drr.[i]).
Proof.
  intros Hpc Hpr Hrc Hrr L1 L2 L3.
  destruct (DPOPLoss_run h pc pr rc rr dpc dpr drc drr Hpc Hpr Hrc Hrr L1 L2 L3 self)
    as (dl & dc & dr & Hret & Hl & Hc & Hr & Hv).
  exists dl, dc, dr. repeat (split; [assumption|]).
  intros i Hi. destruct (Hv i Hi) as (E1 & E2 & E3). cbv zeta in *.
  repeat split; try assumption.
  rewrite E1. now rewrite (Rmax_comm 0).
Qed.

Lemma DPOPLoss_forward_formula_witness :
  exists dl dc dr,
    returns (DPOPLoss.forward DPOPLoss.default ex_pc ex_pr ex_rc ex_rr)
      ex_store dl dc dr
    /\ length dl = 1%nat
    /\ dr.[0] = 1 / 10 * (-2 - -5 / 2).
Proof.
  destruct (DPOPLoss_forward_formula DPOPLoss.default ex_store
              ex_pc ex_pr ex_rc ex_rr [-1] [-2] [-3 / 2] [-5 / 2]
              eq_refl eq_refl eq_refl eq_refl eq_refl eq_refl eq_refl)
    as (dl & dc & dr & Hret & Hl & _ & _ & Hv).
  exists dl, dc, dr. split; [exact Hret|]. split; [exact Hl|].
  exact (proj2 (proj2 (Hv 0%nat (Nat.lt_0_succ 0)))).
Defined.

(** C4. On four vectors of one length, [RSOLoss.forward] returns the hinge
    loss [relu (1 - gamma * logits)] of the plain DPO logits: it is [0]
    as soon as [gamma * logits >= 1], it is [1 - gamma * logits], hence
    positive, below that, and it is [1] where the logits are [0]. *)
Theorem RSOLoss_forward_hinge (self : RSOLoss.t) (h : Store)
    (pc pr rc rr : Tensor) (dpc dpr drc drr : list R) :
  data h pc = Some dpc -> data h pr = Some dpr ->
  data h rc = Some drc -> data h rr = Some drr ->
  length dpr = length dpc -> length drc = length dpc -> length drr = length dpc ->
  exists dl dc dr,
    returns (RSOLoss.forward self pc pr rc rr) h dl dc dr
    /\ length dl = length dpc /\ length dc = length dpc /\ length dr = length dpc
    /\ forall i, (i < length dpc)%nat ->
         let logits := (dpc.[i] - dpr.[i]) - (drc.[i] - drr.[i]) in
         dl.[i] = Rmax 0 (1 - RSOLoss.gamma self * logits)
         /\ (RSOLoss.gamma self * logits >= 1 -> dl.[i] = 0)
         /\ (RSOLoss.gamma self * logits < 1 ->
             dl.[i] = 1 - RSOLoss.gamma self * logits /\ 0 < dl.[i])
         /\ (logits = 0 -> dl.[i] = 1)
         /\ dc.[i] = RSOLoss.gamma self * (dpc.[i] - drc.[i])
         /\ dr.[i] = RSOLoss.gamma self * (dpr.[i] - drr.[i]).
Proof.
  intros Hpc Hpr Hrc Hrr L1 L2 L3.
  destruct (RSOLoss_run h pc pr rc rr dpc dpr drc drr Hpc Hpr Hrc Hrr L1 L2 L3 self)
    as (dl & dc & dr & Hret & Hl & Hc & Hr & Hv).
  exists dl, dc, dr. repeat (split; [assumption|]).
  intros i Hi. destruct (Hv i Hi) as (E1 & E2 & E3). cbv zeta in *.
  repeat split; try assumption.
  - intros Hge. rewrite E1. apply Rmax_left. lra.
  - rewrite E1. apply Rmax_right. lra.
  - rewrite E1, Rmax_right; lra.
  - intros E0. rewrite E1, E0, Rmult_0_r, Rminus_0_r. apply Rmax_right. lra.
Qed.

Lemma RSOLoss_forward_hinge_witness :
  exists dl dc dr,
    returns (RSOLoss.forward RSOLoss.default ex_pc ex_pr ex_rc ex_rr)
      ex_store dl dc dr
    /\ length dl = 1%nat
    /\ dl.[0] = 1.
Proof.
  destruct (RSOLoss_forward_hinge RSOLoss.default ex_store
              ex_pc ex_pr ex_rc ex_rr [-1] [-2] [-3 / 2] [-5 / 2]
              eq_refl eq_refl eq_refl eq_refl eq_refl eq_refl eq_refl)
    as (dl & dc & dr & Hret & Hl & _ & _ & Hv).
  exists dl, dc, dr. split; [exact Hret|]. split; [exact Hl|].
  apply (proj1 (proj2 (proj2 (proj2 (Hv 0%nat (Nat.lt_0_succ 0)))))).
  simpl. lra.
Defined.

(** C5. On five vectors of one length, [RPOLoss.forward] returns the
    smoothed logistic loss of DPO on the plain logits (no DPOP penalty)
    plus [rpo_alpha * nll_loss], with the rewards of DPO. *)
Theorem RPOLoss_forward_formula (self : RPOLoss.t) (h : Store)
    (pc pr rc rr nll : Tensor) (dpc dpr drc drr dnll : list R) :
  data h pc = Some dpc -> data h pr = Some dpr ->
  data h rc = Some drc -> data h rr = Some drr -> data h nll = Some dnll ->
  length dpr = length dpc -> length drc = length dpc ->
  length drr = length dpc -> length dnll = length dpc ->
  exists dl dc dr,
    returns (RPOLoss.forward self pc pr rc rr nll) h dl dc dr
    /\ length dl = length dpc /\ length dc = length dpc /\ length dr = length dpc
    /\ forall i, (i < length dpc)%nat ->
         let logits := (dpc.[i] - dpr.[i]) - (drc.[i] - drr.[i]) in
         dl.[i]
         = (- F.log_sigmoid (RPOLoss.beta self * logits)
              * (1 - RPOLoss.label_smoothing self)
            - F.log_sigmoid (- RPOLoss.beta self * logits)
              * RPOLoss.label_smoothing self)
           + RPOLoss.rpo_alpha self * dnll.[i]
         /\ dc.[i] = RPOLoss.beta self * (dpc.[i] - drc.[i])
         /\ dr.[i] = RPOLoss.beta self * (dpr.[i] - drr.[i]).
Proof.
  intros Hpc Hpr Hrc Hrr Hnll L1 L2 L3 L4.
  exact (RPOLoss_run h pc pr rc rr dpc dpr drc drr Hpc Hpr Hrc Hrr L1 L2 L3
           nll dnll Hnll L4 self).
Qed.

Lemma RPOLoss_forward_formula_witness :
  exists dl dc dr,
    returns (RPOLoss.forward RPOLoss.default ex_pc ex_pr ex_rc ex_rr ex_nll)
      ex_nll_store dl dc dr
    /\ length dl = 1%nat
    /\ dc.[0] = 1 / 10 * (-1 - -3 / 2).
Proof.
  destruct (RPOLoss_forward_formula RPOLoss.default ex_nll_store
              ex_pc ex_pr ex_rc ex_rr ex_nll [-1] [-2] [-3 / 2] [-5 / 2] [1 / 2]
              eq_refl eq_refl eq_refl eq_refl eq_refl
              eq_refl eq_refl eq_refl eq_refl)
    as (dl & dc & dr & Hret & Hl & _ & _ & Hv).
  exists dl, dc, dr. split; [exact Hret|]. split; [exact Hl|].
  exact (proj1 (proj2 (Hv 0%nat (Nat.lt_0_succ 0)))).
Defined.

(** C6 (as stated, refuted).  With [beta = 0] the Python division
    [self.gamma / self.beta] raises before any logit is computed:
    [forward] returns nothing. *)
Lemma SimPOLoss_zero_beta_raises :
  SimPOLoss.forward (SimPOLoss.__init__ 0 (1 / 2) 0) ex_pc ex_pr ex_store
  = Err ZeroDivisionError.
Proof.
  unfold SimPOLoss.forward.
  erewrite bind_ok
    by (eapply binop_ok; [reflexivity | reflexivity | reflexivity]).
  apply bind_err. apply float_div_zero.
Qed.

(** C6 (amended).  On two vectors of one length and for [beta <> 0],
    [SimPOLoss.forward] returns the smoothed logistic loss of
    [beta * logits] with [logits = (policy_chosen - policy_rejected) - gamma / beta]
    and the rewards [beta * policy_chosen] and [beta * policy_rejected];
    where the two vectors agree the logits are [- gamma / beta].  For
    [beta = 0] the division raises [ZeroDivisionError]. *)
Theorem SimPOLoss_forward_formula (self : SimPOLoss.t) (h : Store)
    (pc pr : Tensor) (dpc dpr : list R) :
  data h pc = Some dpc -> data h pr = Some dpr ->
  length dpr = length dpc ->
  (SimPOLoss.beta self <> 0 ->
   exists dl dc dr,
     returns (SimPOLoss.forward self pc pr) h dl dc dr
     /\ length dl = length dpc /\ length dc = length dpc /\ length dr = length dpc
     /\ forall i, (i < length dpc)%nat ->
          let logits :=
            (dpc.[i] - dpr.[i]) - SimPOLoss.gamma self / SimPOLoss.beta self in
          dl.[i]
          = - F.log_sigmoid (SimPOLoss.beta self * logits)
              * (1 - SimPOLoss.label_smoothing self)
            - F.log_sigmoid (- SimPOLoss.beta self * logits)
              * SimPOLoss.label_smoothing self
          /\ (dpc.[i] = dpr.[i] ->
              logits = - SimPOLoss.gamma self / SimPOLoss.beta self)
          /\ dc.[i] = SimPOLoss.beta self * dpc.[i]
          /\ dr.[i] = SimPOLoss.beta self * dpr.[i])
  /\ (SimPOLoss.beta self = 0 ->
      SimPOLoss.forward self pc pr h = Err ZeroDivisionError).
Proof.
  intros Hpc Hpr L1. split.
  - intros Hb.
    destruct (SimPOLoss_run self h pc pr dpc dpr Hpc Hpr L1 Hb)
      as (dl & dc & dr & Hret & Hl & Hc & Hr & Hv).
    exists dl, dc, dr. repeat (split; [assumption|]).
    intros i Hi. destruct (Hv i Hi) as (E1 & E2 & E3). cbv zeta in *.
    repeat split; try assumption.
    intros ->. unfold Rdiv. ring.
  - intros Hb. unfold SimPOLoss.forward.
    erewrite bind_ok
      by (eapply binop_ok; [eassumption | eassumption | apply broadcast_same; lia]).
    apply bind_err. rewrite Hb. apply float_div_zero.
Qed.

Lemma SimPOLoss_forward_formula_witness :
  exists dl dc dr,
    returns (SimPOLoss.forward SimPOLoss.default ex_pc ex_pr) ex_store dl dc dr
    /\ length dl = 1%nat
    /\ dc.[0] = 2 * -1.
Proof.
  assert (Hb : SimPOLoss.beta SimPOLoss.default <> 0) by (simpl; lra).
  destruct (proj1 (SimPOLoss_forward_formula SimPOLoss.default ex_store
                     ex_pc ex_pr [-1] [-2] eq_refl eq_refl eq_refl) Hb)
    as (dl & dc & dr & Hret & Hl & _ & _ & Hv).
  exists dl, dc, dr. split; [exact Hret|]. split; [exact Hl|].
  exact (proj1 (proj2 (proj2 (Hv 0%nat (Nat.lt_0_succ 0))))).
Defined.

(** C7. With [label_smoothing = 0] the loss of [DPOLoss.forward] is
    [- log_sigmoid (beta * logits)] for each example.  On the scenario
    vectors [-1], [-2], [-1.5], [-2.5] with the default configuration
    ([beta = 0.1], no smoothing, no penalty) the logits, the third
    tensor [forward] allocates, are [0] and the loss is [ln 2]. *)
Theorem DPOLoss_no_label_smoothing :
  (forall (self : DPOLoss.t) (h : Store) (pc pr rc rr : Tensor)
          (dpc dpr drc drr : list R),
      data h pc = Some dpc -> data h pr = Some dpr ->
      data h rc = Some drc -> data h rr = Some drr ->
      length dpr = length dpc -> length drc = length dpc ->
      length drr = length dpc ->
      DPOLoss.label_smoothing self = 0 ->
      exists dl dc dr,
        returns (DPOLoss.forward self pc pr rc rr) h dl dc dr
        /\ length dl = length dpc
        /\ forall i, (i < length dpc)%nat ->
             let logits :=
               (dpc.[i] - dpr.[i]) - (drc.[i] - drr.[i])
               - DPOLoss.lambda_dpop self * Rmax 0 (drc.[i] - dpc.[i]) in
             dl.[i] = - F.log_sigmoid (DPOLoss.beta self * logits))
  /\ (exists l c r h',
        DPOLoss.forward DPOLoss.default ex_pc ex_pr ex_rc ex_rr ex_store
        = Ok ((l, c, r), h')
        /\ nth_error h' (length ex_store + 2) = Some [0]
        /\ data h' l = Some [ln 2]).
Proof.
  split.
  - intros self h pc pr rc rr dpc dpr drc drr Hpc Hpr Hrc Hrr L1 L2 L3 Hs.
    destruct (DPOLoss_run h pc pr rc rr dpc dpr drc drr
                Hpc Hpr Hrc Hrr L1 L2 L3 self)
      as (dl & dc & dr & Hret & Hl & _ & _ & Hv).
    exists dl, dc, dr. repeat (split; [assumption|]).
    intros i Hi. destruct (Hv i Hi) as (E1 & _). cbv zeta in *.
    rewrite E1, Hs.
    match goal with
    | |- context [?a - DPOLoss.lambda_dpop self * ?m] =>
        replace (a - DPOLoss.lambda_dpop self * m)
          with (a + - DPOLoss.lambda_dpop self * m) by ring
    end.
    ring.
  - do 4 eexists. split; [reflexivity|]. split; cbn; do 2 f_equal.
    + lra.
    + replace (-1 - -2 - (-3 / 2 - -5 / 2) + - 0 * Rmax 0 (-3 / 2 - -1))
        with 0 by lra.
      rewrite !Rmult_0_r, log_sigmoid_0. lra.
Qed.

Lemma DPOLoss_no_label_smoothing_witness :
  exists dl dc dr,
    returns (DPOLoss.forward DPOLoss.default ex_pc ex_pr ex_rc ex_rr)
      ex_store dl dc dr
    /\ length dl = 1%nat
    /\ dl.[0]
       = - F.log_sigmoid
             (1 / 10 * ((-1 - -2) - (-3 / 2 - -5 / 2) - 0 * Rmax 0 (-3 / 2 - -1))).
Proof.
  destruct (proj1 DPOLoss_no_label_smoothing DPOLoss.default ex_store
              ex_pc ex_pr ex_rc ex_rr [-1] [-2] [-3 / 2] [-5 / 2]
              eq_refl eq_refl eq_refl eq_refl eq_refl eq_refl eq_refl eq_refl)
    as (dl & dc & dr & Hret & Hl & Hv).
  exists dl, dc, dr. split; [exact Hret|]. split; [exact Hl|].
  exact (Hv 0%nat (Nat.lt_0_succ 0)).
Defined.

(** C8. In all five losses the two rewards come out of [detach]: they do
    not require gradients, whatever the inputs do, so nothing flows back
    through them; and each reward has a storage of its own, so overwriting
    its values does not change the values of the loss. *)
Theorem rewards_detached :
  (forall self pc pr rc rr h,
      detached_rewards (DPOLoss.forward self pc pr rc rr) h)
  /\ (forall self pc pr rc rr h,
      detached_rewards (DPOPLoss.forward self pc pr rc rr) h)
  /\ (forall self pc pr rc rr nll h,
      detached_rewards (RPOLoss.forward self pc pr rc rr nll) h)
  /\ (forall self pc pr rc rr h,
      detached_rewards (RSOLoss.forward self pc pr rc rr) h)
  /\ (forall self pc pr h,
      detached_rewards (SimPOLoss.forward self pc pr) h).
Proof.
  split; [|split; [|split; [|split]]].
  - intros self pc pr rc rr h l c r h' H.
    unfold DPOLoss.forward in H. invert_run H. solve_detached.
  - intros self pc pr rc rr h l c r h' H.
    unfold DPOPLoss.forward in H. invert_run H. solve_detached.
  - intros self pc pr rc rr nll h l c r h' H.
    unfold RPOLoss.forward in H. invert_run H. solve_detached.
  - intros self pc pr rc rr h l c r h' H.
    unfold RSOLoss.forward in H. invert_run H. solve_detached.
  - intros self pc pr h l c r h' H.
    unfold SimPOLoss.forward in H. invert_run H. solve_detached.
Qed.

Lemma rewards_detached_witness :
  exists l c r h',
    DPOLoss.forward DPOLoss.default ex_pc ex_pr ex_rc ex_rr ex_store
    = Ok ((l, c, r), h')
    /\ requires_grad l = true
    /\ requires_grad c = false /\ requires_grad r = false.
Proof.
  do 4 eexists. split; [reflexivity|]. split; [reflexivity|].
  destruct (proj1 rewards_detached DPOLoss.default ex_pc ex_pr ex_rc ex_rr
              ex_store _ _ _ _ eq_refl) as (Hc & Hr & _).
  split; [exact Hc | exact Hr].
Defined.

(** C10. Two [DPOPLoss] configurations that agree on [beta] and
    [lambda_dpop] give the same result on the same inputs, whatever their
    [label_smoothing]: the constructor stores it and [forward] never
    reads it. *)
Theorem DPOPLoss_label_smoothing_unused (self1 self2 : DPOPLoss.t)
    (pc pr rc rr : Tensor) (h : Store) :
  DPOPLoss.beta self1 = DPOPLoss.beta self2 ->
  DPOPLoss.lambda_dpop self1 = DPOPLoss.lambda_dpop self2 ->
  DPOPLoss.forward self1 pc pr rc rr h = DPOPLoss.forward self2 pc pr rc rr h.
Proof.
  destruct self1 as [b1 s1 l1], self2 as [b2 s2 l2]; simpl.
  intros -> ->. reflexivity.
Qed.

Lemma DPOPLoss_label_smoothing_unused_witness :
  DPOPLoss.label_smoothing (DPOPLoss.__init__ (1 / 10) (1 / 2) 5)
  = 1 / 2
  /\ DPOPLoss.forward (DPOPLoss.__init__ (1 / 10) 0 5)
       ex_pc ex_pr ex_rc ex_rr ex_store
     = DPOPLoss.forward (DPOPLoss.__init__ (1 / 10) (1 / 2) 5)
         ex_pc ex_pr ex_rc ex_rr ex_store.
Proof.
  split; [reflexivity|].
  exact (DPOPLoss_label_smoothing_unused
           (DPOPLoss.__init__ (1 / 10) 0 5) (DPOPLoss.__init__ (1 / 10) (1 / 2) 5)
           ex_pc ex_pr ex_rc ex_rr ex_store eq_refl eq_refl).
Defined.

(** * Further properties *)

(** ** The store across a call *)

Lemma data_in_store (h : Store) (t : Tensor) (x : list R) :
  data h t = Some x -> (storage t < length h)%nat.
Proof. unfold data; intros H. apply nth_error_Some. congruence. Qed.

Lemma data_upd_other (h : Store) (n : nat) (d : list R) (t : Tensor) :
  storage t <> n -> data (upd n d h) t = data h t.
Proof. intros Hne. unfold data. apply nth_error_upd_other. congruence. Qed.

Lemma alloc_store d g h t h' :
  alloc d g h = Ok (t, h') -> t = mkTensor (length h) g /\ h' = h ++ [d].
Proof. unfold alloc. now intros [= <- <-]. Qed.

Lemma unop_store f a h t h' :
  unop f a h = Ok (t, h') ->
  t = mkTensor (length h) (requires_grad a) /\ exists d, h' = h ++ [d].
Proof.
  unfold unop, bind, load. destruct (data h a) as [da|]; [|discriminate].
  intros H. apply alloc_store in H as [-> ->]. eauto.
Qed.

Lemma binop_store f a b h t h' :
  binop f a b h = Ok (t, h') ->
  t = mkTensor (length h) (requires_grad a || requires_grad b)
  /\ exists d, h' = h ++ [d].
Proof.
  unfold binop, bind, load, lift.
  destruct (data h a) as [da|]; [|discriminate].
  destruct (data h b) as [db|]; [|discriminate].
  destruct (broadcast f da db) as [d|e]; [|discriminate].
  intros H. apply alloc_store in H as [-> ->]. eauto.
Qed.

Lemma inplace_store f a b h t h' :
  inplace f a b h = Ok (t, h') ->
  t = mkTensor (storage a) (requires_grad a || requires_grad b)
  /\ exists d, h' = upd (storage a) d h.
Proof.
  unfold inplace, bind, load, lift, write, ret.
  destruct (data h a) as [da|]; [|discriminate].
  destruct (data h b) as [db|]; [|discriminate].
  destruct (broadcast_to f da db) as [d|e]; [|discriminate].
  intros [= <- <-]. eauto.
Qed.

Ltac store_step H :=
  let E := fresh "E" in
  apply bind_inv in H; destruct H as (? & ? & E & H);
  first
    [ apply binop_store in E; destruct E as [? [? ?]]; subst
    | apply unop_store in E; destruct E as [? [? ?]]; subst
    | apply inplace_store in E; destruct E as [? [? ?]]; subst
    | apply alloc_store in E; destruct E as [? ?]; subst
    | apply detach_inv in E; destruct E as [? ?]; subst
    | apply shape_inv in E; subst
    | apply float_div_inv in E; subst ].

Ltac store_run H :=
  repeat store_step H;
  unfold ret in H; injection H as ? ? ? ?; subst;
  cbn [storage requires_grad] in *.

Ltac solve_untouched :=
  match goal with
  | Ht : data ?h ?t = Some ?x |- _ =>
      pose proof (data_in_store h t x Ht);
      repeat first
        [ apply data_alloc_old
        | rewrite data_upd_other
            by (repeat rewrite ?length_app, ?upd_length; simpl; lia) ];
      exact Ht
  end.

(** X1. No [forward] changes a tensor of its caller: every tensor of the
    initial store holds the same values in the final store.  The in-place
    [logits += ...] of [DPOLoss] writes to a storage [forward] allocated. *)
Theorem forward_leaves_inputs :
  (forall self pc pr rc rr h,
      inputs_untouched (DPOLoss.forward self pc pr rc rr) h)
  /\ (forall self pc pr rc rr h,
      inputs_untouched (DPOPLoss.forward self pc pr rc rr) h)
  /\ (forall self pc pr rc rr nll h,
      inputs_untouched (RPOLoss.forward self pc pr rc rr nll) h)
  /\ (forall self pc pr rc rr h,
      inputs_untouched (RSOLoss.forward self pc pr rc rr) h)
  /\ (forall self pc pr h,
      inputs_untouched (SimPOLoss.forward self pc pr) h).
Proof.
  split; [|split; [|split; [|split]]].
  - intros self pc pr rc rr h l c r h' H t x Ht.
    unfold DPOLoss.forward in H. store_run H. solve_untouched.
  - intros self pc pr rc rr h l c r h' H t x Ht.
    unfold DPOPLoss.forward in H. store_run H. solve_untouched.
  - intros self pc pr rc rr nll h l c r h' H t x Ht.
    unfold RPOLoss.forward in H. store_run H. solve_untouched.
  - intros self pc pr rc rr h l c r h' H t x Ht.
    unfold RSOLoss.forward in H. store_run H. solve_untouched.
  - intros self pc pr h l c r h' H t x Ht.
    unfold SimPOLoss.forward in H. store_run H. solve_untouched.
Qed.

Lemma forward_leaves_inputs_witness :
  exists l c r h',
    DPOLoss.forward DPOLoss.default ex_pc ex_pr ex_rc ex_rr ex_store
    = Ok ((l, c, r), h')
    /\ data h' ex_pc = Some [-1] /\ data h' ex_rr = Some [-5 / 2].
Proof.
  do 4 eexists. split; [reflexivity|]. split.
  - exact (proj1 forward_leaves_inputs DPOLoss.default ex_pc ex_pr ex_rc ex_rr
             ex_store _ _ _ _ eq_refl ex_pc [-1] eq_refl).
  - exact (proj1 forward_leaves_inputs DPOLoss.default ex_pc ex_pr ex_rc ex_rr
             ex_store _ _ _ _ eq_refl ex_rr [-5 / 2] eq_refl).
Defined.

Ltac solve_fresh := repeat split; cbn [storage]; lia.

(** X2. The loss and the two rewards a [forward] returns live in three
    different storages, none of which existed before the call: they alias
    neither each other nor any argument ([detach] shares its argument's
    storage, the multiplication by [beta] or [gamma] allocates). *)
Theorem forward_outputs_fresh :
  (forall self pc pr rc rr h,
      fresh_outputs (DPOLoss.forward self pc pr rc rr) h)
  /\ (forall self pc pr rc rr h,
      fresh_outputs (DPOPLoss.forward self pc pr rc rr) h)
  /\ (forall self pc pr rc rr nll h,
      fresh_outputs (RPOLoss.forward self pc pr rc rr nll) h)
  /\ (forall self pc pr rc rr h,
      fresh_outputs (RSOLoss.forward self pc pr rc rr) h)
  /\ (forall self pc pr h,
      fresh_outputs (SimPOLoss.forward self pc pr) h).
Proof.
  split; [|split; [|split; [|split]]].
  - intros self pc pr rc rr h l c r h' H.
    unfold DPOLoss.forward in H. invert_run H. solve_fresh.
  - intros self pc pr rc rr h l c r h' H.
    unfold DPOPLoss.forward in H. invert_run H. solve_fresh.
  - intros self pc pr rc rr nll h l c r h' H.
    unfold RPOLoss.forward in H. invert_run H. solve_fresh.
  - intros self pc pr rc rr h l c r h' H.
    unfold RSOLoss.forward in H. invert_run H. solve_fresh.
  - intros self pc pr h l c r h' H.
    unfold SimPOLoss.forward in H. invert_run H. solve_fresh.
Qed.

Lemma forward_outputs_fresh_witness :
  exists l c r h',
    SimPOLoss.forward SimPOLoss.default ex_pc ex_pr ex_store
    = Ok ((l, c, r), h')
    /\ (length ex_store <= storage c < length h')%nat
    /\ storage l <> storage c.
Proof.
  assert (Hb : SimPOLoss.beta SimPOLoss.default <> 0) by (simpl; lra).
  destruct (SimPOLoss_run SimPOLoss.default ex_store ex_pc ex_pr [-1] [-2]
              eq_refl eq_refl eq_refl Hb)
    as (dl & dc & dr & (l & c & r & h' & E & _) & _).
  exists l, c, r, h'. split; [exact E|].
  destruct (proj2 (proj2 (proj2 (proj2 forward_outputs_fresh)))
              SimPOLoss.default ex_pc ex_pr ex_store l c r h' E)
    as (_ & Hc & _ & Hlc & _).
  split; [exact Hc | exact Hlc].
Defined.

Ltac solve_flag :=
  repeat match goal with
         | |- context [requires_grad ?t] =>
             is_var t; destruct (requires_grad t)
         end;
  reflexivity.

(** X3. The loss a [forward] returns requires gradients exactly when one of
    the argument vectors does ([nll_loss] included for [RPOLoss]). *)
Theorem loss_requires_grad :
  (forall self pc pr rc rr h l c r h',
      DPOLoss.forward self pc pr rc rr h = Ok ((l, c, r), h') ->
      requires_grad l
      = requires_grad pc || requires_grad pr
        || requires_grad rc || requires_grad rr)
  /\ (forall self pc pr rc rr h l c r h',
      DPOPLoss.forward self pc pr rc rr h = Ok ((l, c, r), h') ->
      requires_grad l
      = requires_grad pc || requires_grad pr
        || requires_grad rc || requires_grad rr)
  /\ (forall self pc pr rc rr nll h l c r h',
      RPOLoss.forward self pc pr rc rr nll h = Ok ((l, c, r), h') ->
      requires_grad l
      = requires_grad pc || requires_grad pr
        || requires_grad rc || requires_grad rr || requires_grad nll)
  /\ (forall self pc pr rc rr h l c r h',
      RSOLoss.forward self pc pr rc rr h = Ok ((l, c, r), h') ->
      requires_grad l
      = requires_grad pc || requires_grad pr
        || requires_grad rc || requires_grad rr)
  /\ (forall self pc pr h l c r h',
      SimPOLoss.forward self pc pr h = Ok ((l, c, r), h') ->
      requires_grad l = requires_grad pc || requires_grad pr).
Proof.
  split; [|split; [|split; [|split]]].
  - intros self pc pr rc rr h l c r h' H.
    unfold DPOLoss.forward in H. invert_run H. solve_flag.
  - intros self pc pr rc rr h l c r h' H.
    unfold DPOPLoss.forward in H. invert_run H. solve_flag.
  - intros self pc pr rc rr nll h l c r h' H.
    unfold RPOLoss.forward in H. invert_run H. solve_flag.
  - intros self pc pr rc rr h l c r h' H.
    unfold RSOLoss.forward in H. invert_run H. solve_flag.
  - intros self pc pr h l c r h' H.
    unfold SimPOLoss.forward in H. invert_run H. solve_flag.
Qed.

Lemma loss_requires_grad_witness :
  exists l c r h',
    DPOLoss.forward DPOLoss.default ex_rc ex_rr ex_rc ex_rr ex_store
    = Ok ((l, c, r), h')
    /\ requires_grad l = false.
Proof.
  do 4 eexists. split; [reflexivity|].
  exact (proj1 loss_requires_grad DPOLoss.default ex_rc ex_rr ex_rc ex_rr
           ex_store _ _ _ _ eq_refl).
Defined.

(** ** The logistic function *)

Lemma log_sigmoid_neg x : F.log_sigmoid x < 0.
Proof.
  unfold F.log_sigmoid.
  assert (H : 0 < ln (1 + exp (- x))).
  { rewrite <- ln_1. apply ln_increasing; [lra|]. pose proof (exp_pos (- x)). lra. }
  lra.
Qed.

Lemma log_sigmoid_le x y : x <= y -> F.log_sigmoid x <= F.log_sigmoid y.
Proof.
  intros [Hlt | ->]; [|lra]. unfold F.log_sigmoid.
  assert (H : ln (1 + exp (- y)) < ln (1 + exp (- x))).
  { apply ln_increasing.
    - pose proof (exp_pos (- y)). lra.
    - assert (exp (- y) < exp (- x)) by (apply exp_increasing; lra). lra. }
  lra.
Qed.

(** [log_sigmoid x - log_sigmoid (- x) = x] *)
Lemma log_sigmoid_opp x : F.log_sigmoid (- x) = F.log_sigmoid x - x.
Proof.
  unfold F.log_sigmoid. rewrite Ropp_involutive.
  assert (E : 1 + exp x = exp x * (1 + exp (- x))).
  { rewrite Rmult_plus_distr_l, Rmult_1_r, <- exp_plus.
    replace (x + - x) with 0 by lra. rewrite exp_0. lra. }
  rewrite E, ln_mult, ln_exp.
  - lra.
  - apply exp_pos.
  - pose proof (exp_pos (- x)). lra.
Qed.

(** ** Values of the losses *)

(** X4. Lower bounds.  With [label_smoothing] between 0 and 1 every loss of
    [DPOLoss] and [SimPOLoss] is positive and every loss of [RPOLoss] is
    above [rpo_alpha * nll_loss]; with [lambda_dpop >= 0] every loss of
    [DPOPLoss] is positive; a loss of [RSOLoss] is never negative. *)
Theorem losses_bounded_below :
  (forall (self : DPOLoss.t) h pc pr rc rr dpc dpr drc drr,
      data h pc = Some dpc -> data h pr = Some dpr ->
      data h rc = Some drc -> data h rr = Some drr ->
      length dpr = length dpc -> length drc = length dpc ->
      length drr = length dpc ->
      0 <= DPOLoss.label_smoothing self <= 1 ->
      exists dl dc dr,
        returns (DPOLoss.forward self pc pr rc rr) h dl dc dr
        /\ forall i, (i < length dpc)%nat -> 0 < dl.[i])
  /\ (forall (self : DPOPLoss.t) h pc pr rc rr dpc dpr drc drr,
      data h pc = Some dpc -> data h pr = Some dpr ->
      data h rc = Some drc -> data h rr = Some drr ->
      length dpr = length dpc -> length drc = length dpc ->
      length drr = length dpc ->
      0 <= DPOPLoss.lambda_dpop self ->
      exists dl dc dr,
        returns (DPOPLoss.forward self pc pr rc rr) h dl dc dr
        /\ forall i, (i < length dpc)%nat -> 0 < dl.[i])
  /\ (forall (self : RPOLoss.t) h pc pr rc rr nll dpc dpr drc drr dnll,
      data h pc = Some dpc -> data h pr = Some dpr ->
      data h rc = Some drc -> data h rr = Some drr ->
      data h nll = Some dnll ->
      length dpr = length dpc -> length drc = length dpc ->
      length drr = length dpc -> length dnll = length dpc ->
      0 <= RPOLoss.label_smoothing self <= 1 ->
      exists dl dc dr,
        returns (RPOLoss.forward self pc pr rc rr nll) h dl dc dr
        /\ forall i, (i < length dpc)%nat ->
             RPOLoss.rpo_alpha self * dnll.[i] < dl.[i])
  /\ (forall (self : RSOLoss.t) h pc pr rc rr dpc dpr drc drr,
      data h pc = Some dpc -> data h pr = Some dpr ->
      data h rc = Some drc -> data h rr = Some drr ->
      length dpr = length dpc -> length drc = length dpc ->
      length drr = length dpc ->
      exists dl dc dr,
        returns (RSOLoss.forward self pc pr rc rr) h dl dc dr
        /\ forall i, (i < length dpc)%nat -> 0 <= dl.[i])
  /\ (forall (self : SimPOLoss.t) h pc pr dpc dpr,
      data h pc = Some dpc -> data h pr = Some dpr ->
      length dpr = length dpc ->
      SimPOLoss.beta self <> 0 ->
      0 <= SimPOLoss.label_smoothing self <= 1 ->
      exists dl dc dr,
        returns (SimPOLoss.forward self pc pr) h dl dc dr
        /\ forall i, (i < length dpc)%nat -> 0 < dl.[i]).
Proof.
  split; [|split; [|split; [|split]]].
  - intros self h pc pr rc rr dpc dpr drc drr Hpc Hpr Hrc Hrr L1 L2 L3 Hs.
    destruct (DPOLoss_run h pc pr rc rr dpc dpr drc drr
                Hpc Hpr Hrc Hrr L1 L2 L3 self)
      as (dl & dc & dr & Hret & _ & _ & _ & Hv).
    exists dl, dc, dr. split; [exact Hret|].
    intros i Hi. destruct (Hv i Hi) as (E1 & _). cbv zeta in E1. rewrite E1.
    match goal with
    | |- 0 < - F.log_sigmoid ?a * _ - F.log_sigmoid ?b * _ =>
        pose proof (log_sigmoid_neg a); pose proof (log_sigmoid_neg b)
    end.
    nra.
  - intros self h pc pr rc rr dpc dpr drc drr Hpc Hpr Hrc Hrr L1 L2 L3 Hs.
    destruct (DPOPLoss_run h pc pr rc rr dpc dpr drc drr
                Hpc Hpr Hrc Hrr L1 L2 L3 self)
      as (dl & dc & dr & Hret & _ & _ & _ & Hv).
    exists dl, dc, dr. split; [exact Hret|].
    intros i Hi. destruct (Hv i Hi) as (E1 & _). cbv zeta in E1. rewrite E1.
    match goal with
    | |- 0 < - (F.log_sigmoid ?a - _ * Rmax ?x 0) =>
        pose proof (log_sigmoid_neg a); pose proof (Rmax_r x 0)
    end.
    nra.
  - intros self h pc pr rc rr nll dpc dpr drc drr dnll
      Hpc Hpr Hrc Hrr Hnll L1 L2 L3 L4 Hs.
    destruct (RPOLoss_run h pc pr rc rr dpc dpr drc drr
                Hpc Hpr Hrc Hrr L1 L2 L3 nll dnll Hnll L4 self)
      as (dl & dc & dr & Hret & _ & _ & _ & Hv).
    exists dl, dc, dr. split; [exact Hret|].
    intros i Hi. destruct (Hv i Hi) as (E1 & _). cbv zeta in E1. rewrite E1.
    match goal with
    | |- _ < - F.log_sigmoid ?a * _ - F.log_sigmoid ?b * _ + _ =>
        pose proof (log_sigmoid_neg a); pose proof (log_sigmoid_neg b)
    end.
    nra.
  - intros self h pc pr rc rr dpc dpr drc drr Hpc Hpr Hrc Hrr L1 L2 L3.
    destruct (RSOLoss_run h pc pr rc rr dpc dpr drc drr
                Hpc Hpr Hrc Hrr L1 L2 L3 self)
      as (dl & dc & dr & Hret & _ & _ & _ & Hv).
    exists dl, dc, dr. split; [exact Hret|].
    intros i Hi. destruct (Hv i Hi) as (E1 & _). cbv zeta in E1. rewrite E1.
    apply Rmax_l.
  - intros self h pc pr dpc dpr Hpc Hpr L1 Hb Hs.
    destruct (SimPOLoss_run self h pc pr dpc dpr Hpc Hpr L1 Hb)
      as (dl & dc & dr & Hret & _ & _ & _ & Hv).
    exists dl, dc, dr. split; [exact Hret|].
    intros i Hi. destruct (Hv i Hi) as (E1 & _). cbv zeta in E1. rewrite E1.
    match goal with
    | |- 0 < - F.log_sigmoid ?a * _ - F.log_sigmoid ?b * _ =>
        pose proof (log_sigmoid_neg a); pose proof (log_sigmoid_neg b)
    end.
    nra.
Qed.

Lemma losses_bounded_below_witness :
  exists dl dc dr,
    returns
      (DPOLoss.forward (DPOLoss.__init__ (1 / 10) (1 / 4) 1)
         ex_pc ex_pr ex_rc ex_rr) ex_store dl dc dr
    /\ 0 < dl.[0].
Proof.
  assert (Hs : 0 <= 1 / 4 <= 1) by lra.
  destruct (proj1 losses_bounded_below (DPOLoss.__init__ (1 / 10) (1 / 4) 1)
              ex_store ex_pc ex_pr ex_rc ex_rr [-1] [-2] [-3 / 2] [-5 / 2]
              eq_refl eq_refl eq_refl eq_refl eq_refl eq_refl eq_refl Hs)
    as (dl & dc & dr & Hret & Hv).
  exists dl, dc, dr. split; [exact Hret|]. exact (Hv 0%nat (Nat.lt_0_succ 0)).
Defined.

Lemma Rmax_0_mono x y : x <= y -> Rmax 0 x <= Rmax 0 y.
Proof. intros H. unfold Rmax. repeat destruct (Rle_dec _ _); lra. Qed.

Lemma Rmax_0_0 : Rmax 0 0 = 0.
Proof. unfold Rmax. destruct (Rle_dec 0 0); reflexivity. Qed.

(** X5. Reversed labels.  Swapping chosen and rejected vectors and
    replacing [label_smoothing] by [1 - label_smoothing] leaves the loss
    vector of [DPOLoss] (without penalty) and of [RPOLoss] unchanged and
    swaps the two reward vectors. *)
Theorem label_swap_symmetry :
  (forall (self : DPOLoss.t) h pc pr rc rr dpc dpr drc drr,
      data h pc = Some dpc -> data h pr = Some dpr ->
      data h rc = Some drc -> data h rr = Some drr ->
      length dpr = length dpc -> length drc = length dpc ->
      length drr = length dpc ->
      DPOLoss.lambda_dpop self = 0 ->
      exists dl dc dr,
        returns (DPOLoss.forward self pc pr rc rr) h dl dc dr
        /\ returns
             (DPOLoss.forward
                (DPOLoss.__init__ (DPOLoss.beta self)
                   (1 - DPOLoss.label_smoothing self) 0)
                pr pc rr rc) h dl dr dc)
  /\ (forall (self : RPOLoss.t) h pc pr rc rr nll dpc dpr drc drr dnll,
      data h pc = Some dpc -> data h pr = Some dpr ->
      data h rc = Some drc -> data h rr = Some drr ->
      data h nll = Some dnll ->
      length dpr = length dpc -> length drc = length dpc ->
      length drr = length dpc -> length dnll = length dpc ->
      exists dl dc dr,
        returns (RPOLoss.forward self pc pr rc rr nll) h dl dc dr
        /\ returns
             (RPOLoss.forward
                (RPOLoss.__init__ (RPOLoss.beta self)
                   (1 - RPOLoss.label_smoothing self) (RPOLoss.rpo_alpha self))
                pr pc rr rc nll) h dl dr dc).
Proof.
  split.
  - intros self h pc pr rc rr dpc dpr drc drr Hpc Hpr Hrc Hrr L1 L2 L3 Hz.
    destruct (DPOLoss_run h pc pr rc rr dpc dpr drc drr
                Hpc Hpr Hrc Hrr L1 L2 L3 self)
      as (dl & dc & dr & Hret & Hl & Hc & Hr & Hv).
    destruct (DPOLoss_run h pr pc rr rc dpr dpc drr drc Hpr Hpc Hrr Hrc
                ltac:(congruence) ltac:(congruence) ltac:(congruence)
                (DPOLoss.__init__ (DPOLoss.beta self)
                   (1 - DPOLoss.label_smoothing self) 0))
      as (dl' & dc' & dr' & Hret' & Hl' & Hc' & Hr' & Hv').
    cbn [DPOLoss.beta DPOLoss.label_smoothing DPOLoss.lambda_dpop] in Hv'.
    assert (El : dl' = dl).
    { apply nth_ext with (d := 0) (d' := 0); [congruence|].
      intros i Hi. destruct (Hv i ltac:(lia)) as (E1 & _).
      destruct (Hv' i ltac:(lia)) as (E1' & _). cbv zeta in *.
      rewrite E1, E1', Hz.
      set (L := dpc.[i] - dpr.[i] - (drc.[i] - drr.[i])).
      replace (dpr.[i] - dpc.[i] - (drr.[i] - drc.[i]) + - 0 * Rmax 0 (drr.[i] - dpr.[i]))
        with (- L) by (unfold L; ring).
      replace (L + - 0 * Rmax 0 (drc.[i] - dpc.[i])) with L by ring.
      replace (DPOLoss.beta self * - L) with (- DPOLoss.beta self * L) by ring.
      replace (- DPOLoss.beta self * - L) with (DPOLoss.beta self * L) by ring.
      ring. }
    assert (Ec : dc' = dr).
    { apply nth_ext with (d := 0) (d' := 0); [congruence|].
      intros i Hi. destruct (Hv i ltac:(lia)) as (_ & _ & E3).
      destruct (Hv' i ltac:(lia)) as (_ & E2' & _). cbv zeta in *.
      now rewrite E3, E2'. }
    assert (Er : dr' = dc).
    { apply nth_ext with (d := 0) (d' := 0); [congruence|].
      intros i Hi. destruct (Hv i ltac:(lia)) as (_ & E2 & _).
      destruct (Hv' i ltac:(lia)) as (_ & _ & E3'). cbv zeta in *.
      now rewrite E2, E3'. }
    subst. exists dl, dc, dr. split; assumption.
  - intros self h pc pr rc rr nll dpc dpr drc drr dnll
      Hpc Hpr Hrc Hrr Hnll L1 L2 L3 L4.
    destruct (RPOLoss_run h pc pr rc rr dpc dpr drc drr
                Hpc Hpr Hrc Hrr L1 L2 L3 nll dnll Hnll L4 self)
      as (dl & dc & dr & Hret & Hl & Hc & Hr & Hv).
    destruct (RPOLoss_run h pr pc rr rc dpr dpc drr drc Hpr Hpc Hrr Hrc
                ltac:(congruence) ltac:(congruence) ltac:(congruence) nll dnll Hnll
                ltac:(congruence)
                (RPOLoss.__init__ (RPOLoss.beta self)
                   (1 - RPOLoss.label_smoothing self) (RPOLoss.rpo_alpha self)))
      as (dl' & dc' & dr' & Hret' & Hl' & Hc' & Hr' & Hv').
    cbn [RPOLoss.beta RPOLoss.label_smoothing RPOLoss.rpo_alpha] in Hv'.
    assert (El : dl' = dl).
    { apply nth_ext with (d := 0) (d' := 0); [congruence|].
      intros i Hi. destruct (Hv i ltac:(lia)) as (E1 & _).
      destruct (Hv' i ltac:(lia)) as (E1' & _). cbv zeta in *.
      rewrite E1, E1'.
      set (L := dpc.[i] - dpr.[i] - (drc.[i] - drr.[i])).
      replace (dpr.[i] - dpc.[i] - (drr.[i] - drc.[i]))
        with (- L) by (unfold L; ring).
      replace (RPOLoss.beta self * - L) with (- RPOLoss.beta self * L) by ring.
      replace (- RPOLoss.beta self * - L) with (RPOLoss.beta self * L) by ring.
      ring. }
    assert (Ec : dc' = dr).
    { apply nth_ext with (d := 0) (d' := 0); [congruence|].
      intros i Hi. destruct (Hv i ltac:(lia)) as (_ & _ & E3).
      destruct (Hv' i ltac:(lia)) as (_ & E2' & _). cbv zeta in *.
      now rewrite E3, E2'. }
    assert (Er : dr' = dc).
    { apply nth_ext with (d := 0) (d' := 0); [congruence|].
      intros i Hi. destruct (Hv i ltac:(lia)) as (_ & E2 & _).
      destruct (Hv' i ltac:(lia)) as (_ & _ & E3'). cbv zeta in *.
      now rewrite E2, E3'. }
    subst. exists dl, dc, dr. split; assumption.
Qed.

Lemma label_swap_symmetry_witness :
  exists dl dc dr,
    returns
      (DPOLoss.forward (DPOLoss.__init__ (1 / 10) (1 / 4) 0)
         ex_pc ex_pr ex_rc ex_rr) ex_store dl dc dr
    /\ returns
         (DPOLoss.forward (DPOLoss.__init__ (1 / 10) (1 - 1 / 4) 0)
            ex_pr ex_pc ex_rr ex_rc) ex_store dl dr dc.
Proof.
  exact (proj1 label_swap_symmetry (DPOLoss.__init__ (1 / 10) (1 / 4) 0)
           ex_store ex_pc ex_pr ex_rc ex_rr [-1] [-2] [-3 / 2] [-5 / 2]
           eq_refl eq_refl eq_refl eq_refl eq_refl eq_refl eq_refl eq_refl).
Defined.

(** X6. Without label smoothing and for a non-negative temperature, an
    example with larger logits never has a larger loss: [DPOLoss] (logits
    with the penalty), [RSOLoss], [SimPOLoss]. *)
Theorem loss_decreases_with_logits :
  (forall (self : DPOLoss.t) h pc pr rc rr dpc dpr drc drr,
      data h pc = Some dpc -> data h pr = Some dpr ->
      data h rc = Some drc -> data h rr = Some drr ->
      length dpr = length dpc -> length drc = length dpc ->
      length drr = length dpc ->
      DPOLoss.label_smoothing self = 0 -> 0 <= DPOLoss.beta self ->
      exists dl dc dr,
        returns (DPOLoss.forward self pc pr rc rr) h dl dc dr
        /\ forall i j, (i < length dpc)%nat -> (j < length dpc)%nat ->
             let logits k :=
               (dpc.[k] - dpr.[k]) - (drc.[k] - drr.[k])
               - DPOLoss.lambda_dpop self * Rmax 0 (drc.[k] - dpc.[k]) in
             logits i <= logits j -> dl.[j] <= dl.[i])
  /\ (forall (self : RSOLoss.t) h pc pr rc rr dpc dpr drc drr,
      data h pc = Some dpc -> data h pr = Some dpr ->
      data h rc = Some drc -> data h rr = Some drr ->
      length dpr = length dpc -> length drc = length dpc ->
      length drr = length dpc ->
      0 <= RSOLoss.gamma self ->
      exists dl dc dr,
        returns (RSOLoss.forward self pc pr rc rr) h dl dc dr
        /\ forall i j, (i < length dpc)%nat -> (j < length dpc)%nat ->
             let logits k := (dpc.[k] - dpr.[k]) - (drc.[k] - drr.[k]) in
             logits i <= logits j -> dl.[j] <= dl.[i])
  /\ (forall (self : SimPOLoss.t) h pc pr dpc dpr,
      data h pc = Some dpc -> data h pr = Some dpr ->
      length dpr = length dpc ->
      SimPOLoss.label_smoothing self = 0 -> 0 < SimPOLoss.beta self ->
      exists dl dc dr,
        returns (SimPOLoss.forward self pc pr) h dl dc dr
        /\ forall i j, (i < length dpc)%nat -> (j < length dpc)%nat ->
             dpc.[i] - dpr.[i] <= dpc.[j] - dpr.[j] -> dl.[j] <= dl.[i]).
Proof.
  split; [|split].
  - intros self h pc pr rc rr dpc dpr drc drr Hpc Hpr Hrc Hrr L1 L2 L3 Hs Hb.
    destruct (DPOLoss_run h pc pr rc rr dpc dpr drc drr
                Hpc Hpr Hrc Hrr L1 L2 L3 self)
      as (dl & dc & dr & Hret & _ & _ & _ & Hv).
    exists dl, dc, dr. split; [exact Hret|].
    intros i j Hi Hj logits Hle. subst logits. cbv beta in Hle.
    destruct (Hv i Hi) as (Ei & _). destruct (Hv j Hj) as (Ej & _).
    cbv zeta in *. rewrite Ei, Ej, Hs.
    match goal with
    | |- - F.log_sigmoid ?a * _ - _ <= - F.log_sigmoid ?b * _ - _ =>
        assert (H : F.log_sigmoid b <= F.log_sigmoid a)
          by (apply log_sigmoid_le; nra)
    end.
    lra.
  - intros self h pc pr rc rr dpc dpr drc drr Hpc Hpr Hrc Hrr L1 L2 L3 Hg.
    destruct (RSOLoss_run h pc pr rc rr dpc dpr drc drr
                Hpc Hpr Hrc Hrr L1 L2 L3 self)
      as (dl & dc & dr & Hret & _ & _ & _ & Hv).
    exists dl, dc, dr. split; [exact Hret|].
    intros i j Hi Hj logits Hle. subst logits. cbv beta in Hle.
    destruct (Hv i Hi) as (Ei & _). destruct (Hv j Hj) as (Ej & _).
    cbv zeta in *. rewrite Ei, Ej. apply Rmax_0_mono. nra.
  - intros self h pc pr dpc dpr Hpc Hpr L1 Hs Hb.
    destruct (SimPOLoss_run self h pc pr dpc dpr Hpc Hpr L1 ltac:(lra))
      as (dl & dc & dr & Hret & _ & _ & _ & Hv).
    exists dl, dc, dr. split; [exact Hret|].
    intros i j Hi Hj Hle.
    destruct (Hv i Hi) as (Ei & _). destruct (Hv j Hj) as (Ej & _).
    cbv zeta in *. rewrite Ei, Ej, Hs.
    match goal with
    | |- - F.log_sigmoid ?a * _ - _ <= - F.log_sigmoid ?b * _ - _ =>
        assert (H : F.log_sigmoid b <= F.log_sigmoid a)
          by (apply log_sigmoid_le; nra)
    end.
    lra.
Qed.

Lemma loss_decreases_with_logits_witness :
  exists dl dc dr,
    returns (DPOLoss.forward DPOLoss.default ex_pc ex_pr ex_rc ex_rr)
      ex2_store dl dc dr
    /\ dl.[0] <= dl.[1].
Proof.
  assert (Hb : 0 <= DPOLoss.beta DPOLoss.default) by (simpl; lra).
  destruct (proj1 loss_decreases_with_logits DPOLoss.default ex2_store
              ex_pc ex_pr ex_rc ex_rr
              [-1; -2] [-2; -1] [-3 / 2; -1] [-5 / 2; -2]
              eq_refl eq_refl eq_refl eq_refl eq_refl eq_refl eq_refl
              eq_refl Hb)
    as (dl & dc & dr & Hret & Hv).
  exists dl, dc, dr. split; [exact Hret|].
  apply (Hv 1%nat 0%nat); [simpl; lia | simpl; lia |].
  simpl. lra.
Defined.

(** X7. Label smoothing adds a term linear in the scaled logits: the loss
    is [- log_sigmoid x + label_smoothing * x] with [x = beta * logits]
    ([DPOLoss], [RPOLoss] up to the NLL term, [SimPOLoss] with
    [x = beta * (policy_chosen - policy_rejected) - gamma]). *)
Theorem label_smoothing_is_linear :
  (forall (self : DPOLoss.t) h pc pr rc rr dpc dpr drc drr,
      data h pc = Some dpc -> data h pr = Some dpr ->
      data h rc = Some drc -> data h rr = Some drr ->
      length dpr = length dpc -> length drc = length dpc ->
      length drr = length dpc ->
      exists dl dc dr,
        returns (DPOLoss.forward self pc pr rc rr) h dl dc dr
        /\ forall i, (i < length dpc)%nat ->
             let logits :=
               (dpc.[i] - dpr.[i]) - (drc.[i] - drr.[i])
               - DPOLoss.lambda_dpop self * Rmax 0 (drc.[i] - dpc.[i]) in
             dl.[i]
             = - F.log_sigmoid (DPOLoss.beta self * logits)
               + DPOLoss.label_smoothing self * (DPOLoss.beta self * logits))
  /\ (forall (self : RPOLoss.t) h pc pr rc rr nll dpc dpr drc drr dnll,
      data h pc = Some dpc -> data h pr = Some dpr ->
      data h rc = Some drc -> data h rr = Some drr ->
      data h nll = Some dnll ->
      length dpr = length dpc -> length drc = length dpc ->
      length drr = length dpc -> length dnll = length dpc ->
      exists dl dc dr,
        returns (RPOLoss.forward self pc pr rc rr nll) h dl dc dr
        /\ forall i, (i < length dpc)%nat ->
             let logits := (dpc.[i] - dpr.[i]) - (drc.[i] - drr.[i]) in
             dl.[i]
             = - F.log_sigmoid (RPOLoss.beta self * logits)
               + RPOLoss.label_smoothing self * (RPOLoss.beta self * logits)
               + RPOLoss.rpo_alpha self * dnll.[i])
  /\ (forall (self : SimPOLoss.t) h pc pr dpc dpr,
      data h pc = Some dpc -> data h pr = Some dpr ->
      length dpr = length dpc ->
      SimPOLoss.beta self <> 0 ->
      exists dl dc dr,
        returns (SimPOLoss.forward self pc pr) h dl dc dr
        /\ forall i, (i < length dpc)%nat ->
             let scaled :=
               SimPOLoss.beta self * (dpc.[i] - dpr.[i]) - SimPOLoss.gamma self in
             dl.[i]
             = - F.log_sigmoid scaled + SimPOLoss.label_smoothing self * scaled).
Proof.
  split; [|split].
  - intros self h pc pr rc rr dpc dpr drc drr Hpc Hpr Hrc Hrr L1 L2 L3.
    destruct (DPOLoss_run h pc pr rc rr dpc dpr drc drr
                Hpc Hpr Hrc Hrr L1 L2 L3 self)
      as (dl & dc & dr & Hret & _ & _ & _ & Hv).
    exists dl, dc, dr. split; [exact Hret|].
    intros i Hi. destruct (Hv i Hi) as (E1 & _). cbv zeta in *. rewrite E1.
    match goal with
    | |- context [F.log_sigmoid (- ?b * ?l)] =>
        replace (- b * l) with (- (b * l)) by ring;
        rewrite (log_sigmoid_opp (b * l));
        match goal with
        | |- context [?a - DPOLoss.lambda_dpop self * ?m] =>
            replace (a - DPOLoss.lambda_dpop self * m) with l by ring
        end
    end.
    ring.
  - intros self h pc pr rc rr nll dpc dpr drc drr dnll
      Hpc Hpr Hrc Hrr Hnll L1 L2 L3 L4.
    destruct (RPOLoss_run h pc pr rc rr dpc dpr drc drr
                Hpc Hpr Hrc Hrr L1 L2 L3 nll dnll Hnll L4 self)
      as (dl & dc & dr & Hret & _ & _ & _ & Hv).
    exists dl, dc, dr. split; [exact Hret|].
    intros i Hi. destruct (Hv i Hi) as (E1 & _). cbv zeta in *. rewrite E1.
    match goal with
    | |- context [F.log_sigmoid (- ?b * ?l)] =>
        replace (- b * l) with (- (b * l)) by ring;
        rewrite (log_sigmoid_opp (b * l))
    end.
    ring.
  - intros self h pc pr dpc dpr Hpc Hpr L1 Hb.
    destruct (SimPOLoss_run self h pc pr dpc dpr Hpc Hpr L1 Hb)
      as (dl & dc & dr & Hret & _ & _ & _ & Hv).
    exists dl, dc, dr. split; [exact Hret|].
    intros i Hi. destruct (Hv i Hi) as (E1 & _). cbv zeta in *. rewrite E1.
    match goal with
    | |- context [F.log_sigmoid (- ?b * ?l)] =>
        replace (- b * l) with (- (b * l)) by ring;
        rewrite (log_sigmoid_opp (b * l));
        replace (b * l)
          with (b * (dpc.[i] - dpr.[i]) - SimPOLoss.gamma self)
          by (field; exact Hb)
    end.
    ring.
Qed.

Lemma label_smoothing_is_linear_witness :
  exists dl dc dr,
    returns
      (SimPOLoss.forward (SimPOLoss.__init__ 2 (1 / 2) (1 / 4)) ex_pc ex_pr)
      ex_store dl dc dr
    /\ dl.[0]
       = - F.log_sigmoid (2 * (-1 - -2) - 1 / 2)
         + 1 / 4 * (2 * (-1 - -2) - 1 / 2).
Proof.
  assert (Hb : (2 : R) <> 0) by lra.
  destruct (proj2 (proj2 label_smoothing_is_linear)
              (SimPOLoss.__init__ 2 (1 / 2) (1 / 4)) ex_store ex_pc ex_pr
              [-1] [-2] eq_refl eq_refl eq_refl Hb)
    as (dl & dc & dr & Hret & Hv).
  exists dl, dc, dr. split; [exact Hret|]. exact (Hv 0%nat (Nat.lt_0_succ 0)).
Defined.

Lemma DPOLoss_margin :
  forall (self : DPOLoss.t) h pc pr rc rr dpc dpr drc drr,
    data h pc = Some dpc -> data h pr = Some dpr ->
    data h rc = Some drc -> data h rr = Some drr ->
    length dpr = length dpc -> length drc = length dpc ->
    length drr = length dpc ->
    DPOLoss.lambda_dpop self = 0 ->
    exists dl dc dr,
      returns (DPOLoss.forward self pc pr rc rr) h dl dc dr
      /\ forall i, (i < length dpc)%nat ->
           let margin := dc.[i] - dr.[i] in
           dl.[i]
           = - F.log_sigmoid margin * (1 - DPOLoss.label_smoothing self)
             - F.log_sigmoid (- margin) * DPOLoss.label_smoothing self.
Proof.
  intros self h pc pr rc rr dpc dpr drc drr Hpc Hpr Hrc Hrr L1 L2 L3 Hz.
  destruct (DPOLoss_run h pc pr rc rr dpc dpr drc drr
              Hpc Hpr Hrc Hrr L1 L2 L3 self)
    as (dl & dc & dr & Hret & _ & _ & _ & Hv).
  exists dl, dc, dr. split; [exact Hret|].
  intros i Hi. destruct (Hv i Hi) as (E1 & E2 & E3). cbv zeta in *.
  rewrite E1, E2, E3, Hz.
  match goal with
  | |- context [F.log_sigmoid (- ?b * ?l)] =>
      replace (- b * l) with (- (b * l)) by ring;
      replace (b * l)
        with (b * (dpc.[i] - drc.[i]) - b * (dpr.[i] - drr.[i])) by ring
  end.
  reflexivity.
Qed.

Lemma DPOPLoss_margin :
  forall (self : DPOPLoss.t) h pc pr rc rr dpc dpr drc drr,
    data h pc = Some dpc -> data h pr = Some dpr ->
    data h rc = Some drc -> data h rr = Some drr ->
    length dpr = length dpc -> length drc = length dpc ->
    length drr = length dpc ->
    DPOPLoss.beta self <> 0 ->
    exists dl dc dr,
      returns (DPOPLoss.forward self pc pr rc rr) h dl dc dr
      /\ forall i, (i < length dpc)%nat ->
           dl.[i]
           = - F.log_sigmoid (dc.[i] - dr.[i])
             + DPOPLoss.lambda_dpop self
               * Rmax 0 (- dc.[i] / DPOPLoss.beta self).
Proof.
  intros self h pc pr rc rr dpc dpr drc drr Hpc Hpr Hrc Hrr L1 L2 L3 Hb.
  destruct (DPOPLoss_run h pc pr rc rr dpc dpr drc drr
              Hpc Hpr Hrc Hrr L1 L2 L3 self)
    as (dl & dc & dr & Hret & _ & _ & _ & Hv).
  exists dl, dc, dr. split; [exact Hret|].
  intros i Hi. destruct (Hv i Hi) as (E1 & E2 & E3). cbv zeta in *.
  rewrite E1, E2, E3.
  replace (- (DPOPLoss.beta self * (dpc.[i] - drc.[i])) / DPOPLoss.beta self)
    with (drc.[i] - dpc.[i]) by (field; exact Hb).
  rewrite (Rmax_comm 0).
  match goal with
  | |- context [F.log_sigmoid (?b * ?l)] =>
      replace (b * l)
        with (b * (dpc.[i] - drc.[i]) - b * (dpr.[i] - drr.[i])) by ring
  end.
  ring.
Qed.

Lemma RPOLoss_margin :
  forall (self : RPOLoss.t) h pc pr rc rr nll dpc dpr drc drr dnll,
    data h pc = Some dpc -> data h pr = Some dpr ->
    data h rc = Some drc -> data h rr = Some drr ->
    data h nll = Some dnll ->
    length dpr = length dpc -> length drc = length dpc ->
    length drr = length dpc -> length dnll = length dpc ->
    exists dl dc dr,
      returns (RPOLoss.forward self pc pr rc rr nll) h dl dc dr
      /\ forall i, (i < length dpc)%nat ->
           let margin := dc.[i] - dr.[i] in
           dl.[i]
           = - F.log_sigmoid margin * (1 - RPOLoss.label_smoothing self)
             - F.log_sigmoid (- margin) * RPOLoss.label_smoothing self
             + RPOLoss.rpo_alpha self * dnll.[i].
Proof.
  intros self h pc pr rc rr nll dpc dpr drc drr dnll
    Hpc Hpr Hrc Hrr Hnll L1 L2 L3 L4.
  destruct (RPOLoss_run h pc pr rc rr dpc dpr drc drr
              Hpc Hpr Hrc Hrr L1 L2 L3 nll dnll Hnll L4 self)
    as (dl & dc & dr & Hret & _ & _ & _ & Hv).
  exists dl, dc, dr. split; [exact Hret|].
  intros i Hi. destruct (Hv i Hi) as (E1 & E2 & E3). cbv zeta in *.
  rewrite E1, E2, E3.
  match goal with
  | |- context [F.log_sigmoid (- ?b * ?l)] =>
      replace (- b * l) with (- (b * l)) by ring;
      replace (b * l)
        with (b * (dpc.[i] - drc.[i]) - b * (dpr.[i] - drr.[i])) by ring
  end.
  reflexivity.
Qed.

Lemma RSOLoss_margin :
  forall (self : RSOLoss.t) h pc pr rc rr dpc dpr drc drr,
    data h pc = Some dpc -> data h pr = Some dpr ->
    data h rc = Some drc -> data h rr = Some drr ->
    length dpr = length dpc -> length drc = length dpc ->
    length drr = length dpc ->
    exists dl dc dr,
      returns (RSOLoss.forward self pc pr rc rr) h dl dc dr
      /\ forall i, (i < length dpc)%nat ->
           dl.[i] = Rmax 0 (1 - (dc.[i] - dr.[i])).
Proof.
  intros self h pc pr rc rr dpc dpr drc drr Hpc Hpr Hrc Hrr L1 L2 L3.
  destruct (RSOLoss_run h pc pr rc rr dpc dpr drc drr
              Hpc Hpr Hrc Hrr L1 L2 L3 self)
    as (dl & dc & dr & Hret & _ & _ & _ & Hv).
  exists dl, dc, dr. split; [exact Hret|].
  intros i Hi. destruct (Hv i Hi) as (E1 & E2 & E3). cbv zeta in *.
  rewrite E1, E2, E3. f_equal. ring.
Qed.

Lemma SimPOLoss_margin :
  forall (self : SimPOLoss.t) h pc pr dpc dpr,
    data h pc = Some dpc -> data h pr = Some dpr ->
    length dpr = length dpc ->
    SimPOLoss.beta self <> 0 ->
    exists dl dc dr,
      returns (SimPOLoss.forward self pc pr) h dl dc dr
      /\ forall i, (i < length dpc)%nat ->
           let margin := dc.[i] - dr.[i] - SimPOLoss.gamma self in
           dl.[i]
           = - F.log_sigmoid margin * (1 - SimPOLoss.label_smoothing self)
             - F.log_sigmoid (- margin) * SimPOLoss.label_smoothing self.
Proof.
  intros self h pc pr dpc dpr Hpc Hpr L1 Hb.
  destruct (SimPOLoss_run self h pc pr dpc dpr Hpc Hpr L1 Hb)
    as (dl & dc & dr & Hret & _ & _ & _ & Hv).
  exists dl, dc, dr. split; [exact Hret|].
  intros i Hi. destruct (Hv i Hi) as (E1 & E2 & E3). cbv zeta in *.
  rewrite E1, E2, E3.
  match goal with
  | |- context [F.log_sigmoid (- ?b * ?l)] =>
      replace (- b * l) with (- (b * l)) by ring;
      replace (b * l)
        with (b * dpc.[i] - b * dpr.[i] - SimPOLoss.gamma self)
        by (field; exact Hb)
  end.
  reflexivity.
Qed.

(** X8. The loss can be recomputed from the returned rewards: it is the
    smoothed logistic loss of the margin [chosen_reward - rejected_reward]
    for [DPOLoss] without penalty and for [RPOLoss] (plus the NLL term),
    of the margin less [gamma] for [SimPOLoss], and the hinge
    [relu (1 - margin)] for [RSOLoss]; for [DPOPLoss] the penalty is
    [lambda_dpop * max 0 (- chosen_reward / beta)]. *)
Theorem loss_from_reward_margin :
  (forall (self : DPOLoss.t) h pc pr rc rr dpc dpr drc drr,
      data h pc = Some dpc -> data h pr = Some dpr ->
      data h rc = Some drc -> data h rr = Some drr ->
      length dpr = length dpc -> length drc = length dpc ->
      length drr = length dpc ->
      DPOLoss.lambda_dpop self = 0 ->
      exists dl dc dr,
        returns (DPOLoss.forward self pc pr rc rr) h dl dc dr
        /\ forall i, (i < length dpc)%nat ->
             let margin := dc.[i] - dr.[i] in
             dl.[i]
             = - F.log_sigmoid margin * (1 - DPOLoss.label_smoothing self)
               - F.log_sigmoid (- margin) * DPOLoss.label_smoothing self)
  /\ (forall (self : DPOPLoss.t) h pc pr rc rr dpc dpr drc drr,
      data h pc = Some dpc -> data h pr = Some dpr ->
      data h rc = Some drc -> data h rr = Some drr ->
      length dpr = length dpc -> length drc = length dpc ->
      length drr = length dpc ->
      DPOPLoss.beta self <> 0 ->
      exists dl dc dr,
        returns (DPOPLoss.forward self pc pr rc rr) h dl dc dr
        /\ forall i, (i < length dpc)%nat ->
             dl.[i]
             = - F.log_sigmoid (dc.[i] - dr.[i])
               + DPOPLoss.lambda_dpop self
                 * Rmax 0 (- dc.[i] / DPOPLoss.beta self))
  /\ (forall (self : RPOLoss.t) h pc pr rc rr nll dpc dpr drc drr dnll,
      data h pc = Some dpc -> data h pr = Some dpr ->
      data h rc = Some drc -> data h rr = Some drr ->
      data h nll = Some dnll ->
      length dpr = length dpc -> length drc = length dpc ->
      length drr = length dpc -> length dnll = length dpc ->
      exists dl dc dr,
        returns (RPOLoss.forward self pc pr rc rr nll) h dl dc dr
        /\ forall i, (i < length dpc)%nat ->
             let margin := dc.[i] - dr.[i] in
             dl.[i]
             = - F.log_sigmoid margin * (1 - RPOLoss.label_smoothing self)
               - F.log_sigmoid (- margin) * RPOLoss.label_smoothing self
               + RPOLoss.rpo_alpha self * dnll.[i])
  /\ (forall (self : RSOLoss.t) h pc pr rc rr dpc dpr drc drr,
      data h pc = Some dpc -> data h pr = Some dpr ->
      data h rc = Some drc -> data h rr = Some drr ->
      length dpr = length dpc -> length drc = length dpc ->
      length drr = length dpc ->
      exists dl dc dr,
        returns (RSOLoss.forward self pc pr rc rr) h dl dc dr
        /\ forall i, (i < length dpc)%nat ->
             dl.[i] = Rmax 0 (1 - (dc.[i] - dr.[i])))
  /\ (forall (self : SimPOLoss.t) h pc pr dpc dpr,
      data h pc = Some dpc -> data h pr = Some dpr ->
      length dpr = length dpc ->
      SimPOLoss.beta self <> 0 ->
      exists dl dc dr,
        returns (SimPOLoss.forward self pc pr) h dl dc dr
        /\ forall i, (i < length dpc)%nat ->
             let margin := dc.[i] - dr.[i] - SimPOLoss.gamma self in
             dl.[i]
             = - F.log_sigmoid margin * (1 - SimPOLoss.label_smoothing self)
               - F.log_sigmoid (- margin) * SimPOLoss.label_smoothing self).
Proof.
  split; [|split; [|split; [|split]]].
  - exact DPOLoss_margin.
  - exact DPOPLoss_margin.
  - exact RPOLoss_margin.
  - exact RSOLoss_margin.
  - exact SimPOLoss_margin.
Qed.

Lemma loss_from_reward_margin_witness :
  exists dl dc dr,
    returns (RSOLoss.forward RSOLoss.default ex_pc ex_pr ex_rc ex_rr)
      ex_store dl dc dr
    /\ dl.[0] = Rmax 0 (1 - (dc.[0] - dr.[0])).
Proof.
  destruct (proj1 (proj2 (proj2 (proj2 loss_from_reward_margin)))
              RSOLoss.default ex_store ex_pc ex_pr ex_rc ex_rr
              [-1] [-2] [-3 / 2] [-5 / 2]
              eq_refl eq_refl eq_refl eq_refl eq_refl eq_refl eq_refl)
    as (dl & dc & dr & Hret & Hv).
  exists dl, dc, dr. split; [exact Hret|]. exact (Hv 0%nat (Nat.lt_0_succ 0)).
Defined.

(** X9. Where the reference vectors equal the policy vectors (the start of
    training) both rewards are [0] and the loss is [ln 2] for [DPOLoss] and
    [DPOPLoss] whatever the configuration, [ln 2 + rpo_alpha * nll_loss]
    for [RPOLoss] and [1] for [RSOLoss]. *)
Theorem loss_at_reference :
  (forall (self : DPOLoss.t) h pc pr rc rr dpc dpr,
      data h pc = Some dpc -> data h pr = Some dpr ->
      data h rc = Some dpc -> data h rr = Some dpr ->
      length dpr = length dpc ->
      exists dl dc dr,
        returns (DPOLoss.forward self pc pr rc rr) h dl dc dr
        /\ forall i, (i < length dpc)%nat ->
             dl.[i] = ln 2 /\ dc.[i] = 0 /\ dr.[i] = 0)
  /\ (forall (self : DPOPLoss.t) h pc pr rc rr dpc dpr,
      data h pc = Some dpc -> data h pr = Some dpr ->
      data h rc = Some dpc -> data h rr = Some dpr ->
      length dpr = length dpc ->
      exists dl dc dr,
        returns (DPOPLoss.forward self pc pr rc rr) h dl dc dr
        /\ forall i, (i < length dpc)%nat ->
             dl.[i] = ln 2 /\ dc.[i] = 0 /\ dr.[i] = 0)
  /\ (forall (self : RPOLoss.t) h pc pr rc rr nll dpc dpr dnll,
      data h pc = Some dpc -> data h pr = Some dpr ->
      data h rc = Some dpc -> data h rr = Some dpr ->
      data h nll = Some dnll ->
      length dpr = length dpc -> length dnll = length dpc ->
      exists dl dc dr,
        returns (RPOLoss.forward self pc pr rc rr nll) h dl dc dr
        /\ forall i, (i < length dpc)%nat ->
             dl.[i] = ln 2 + RPOLoss.rpo_alpha self * dnll.[i]
             /\ dc.[i] = 0 /\ dr.[i] = 0)
  /\ (forall (self : RSOLoss.t) h pc pr rc rr dpc dpr,
      data h pc = Some dpc -> data h pr = Some dpr ->
      data h rc = Some dpc -> data h rr = Some dpr ->
      length dpr = length dpc ->
      exists dl dc dr,
        returns (RSOLoss.forward self pc pr rc rr) h dl dc dr
        /\ forall i, (i < length dpc)%nat ->
             dl.[i] = 1 /\ dc.[i] = 0 /\ dr.[i] = 0).
Proof.
  split; [|split; [|split]].
  - intros self h pc pr rc rr dpc dpr Hpc Hpr Hrc Hrr L1.
    destruct (DPOLoss_run h pc pr rc rr dpc dpr dpc dpr
                Hpc Hpr Hrc Hrr L1 eq_refl L1 self)
      as (dl & dc & dr & Hret & _ & _ & _ & Hv).
    exists dl, dc, dr. split; [exact Hret|].
    intros i Hi. destruct (Hv i Hi) as (E1 & E2 & E3). cbv zeta in *.
    rewrite E1, E2, E3. repeat split; try ring.
    replace (dpc.[i] - dpc.[i]) with 0 by ring. rewrite Rmax_0_0.
    match goal with
    | |- context [F.log_sigmoid (- ?b * ?l)] =>
        replace (- b * l) with 0 by ring; replace (b * l) with 0 by ring
    end.
    rewrite log_sigmoid_0. ring.
  - intros self h pc pr rc rr dpc dpr Hpc Hpr Hrc Hrr L1.
    destruct (DPOPLoss_run h pc pr rc rr dpc dpr dpc dpr
                Hpc Hpr Hrc Hrr L1 eq_refl L1 self)
      as (dl & dc & dr & Hret & _ & _ & _ & Hv).
    exists dl, dc, dr. split; [exact Hret|].
    intros i Hi. destruct (Hv i Hi) as (E1 & E2 & E3). cbv zeta in *.
    rewrite E1, E2, E3. repeat split; try ring.
    replace (dpc.[i] - dpc.[i]) with 0 by ring. rewrite Rmax_0_0.
    match goal with
    | |- context [F.log_sigmoid (?b * ?l)] => replace (b * l) with 0 by ring
    end.
    rewrite log_sigmoid_0. ring.
  - intros self h pc pr rc rr nll dpc dpr dnll Hpc Hpr Hrc Hrr Hnll L1 L4.
    destruct (RPOLoss_run h pc pr rc rr dpc dpr dpc dpr
                Hpc Hpr Hrc Hrr L1 eq_refl L1 nll dnll Hnll L4 self)
      as (dl & dc & dr & Hret & _ & _ & _ & Hv).
    exists dl, dc, dr. split; [exact Hret|].
    intros i Hi. destruct (Hv i Hi) as (E1 & E2 & E3). cbv zeta in *.
    rewrite E1, E2, E3. repeat split; try ring.
    match goal with
    | |- context [F.log_sigmoid (- ?b * ?l)] =>
        replace (- b * l) with 0 by ring; replace (b * l) with 0 by ring
    end.
    rewrite log_sigmoid_0. ring.
  - intros self h pc pr rc rr dpc dpr Hpc Hpr Hrc Hrr L1.
    destruct (RSOLoss_run h pc pr rc rr dpc dpr dpc dpr
                Hpc Hpr Hrc Hrr L1 eq_refl L1 self)
      as (dl & dc & dr & Hret & _ & _ & _ & Hv).
    exists dl, dc, dr. split; [exact Hret|].
    intros i Hi. destruct (Hv i Hi) as (E1 & E2 & E3). cbv zeta in *.
    rewrite E1, E2, E3. repeat split; try ring.
    match goal with
    | |- Rmax 0 ?x = 1 => replace x with 1 by ring
    end.
    apply Rmax_right. lra.
Qed.

Lemma loss_at_reference_witness :
  exists dl dc dr,
    returns
      (DPOLoss.forward (DPOLoss.__init__ (1 / 2) (1 / 4) 5)
         ex_pc ex_pr ex_pc ex_pr) ex_store dl dc dr
    /\ dl.[0] = ln 2 /\ dc.[0] = 0 /\ dr.[0] = 0.
Proof.
  destruct (proj1 loss_at_reference (DPOLoss.__init__ (1 / 2) (1 / 4) 5)
              ex_store ex_pc ex_pr ex_pc ex_pr [-1] [-2]
              eq_refl eq_refl eq_refl eq_refl eq_refl)
    as (dl & dc & dr & Hret & Hv).
  exists dl, dc, dr. split; [exact Hret|]. exact (Hv 0%nat (Nat.lt_0_succ 0)).
Defined.

Lemma same_values (a b : list R) :
  length a = length b ->
  (forall i, (i < length a)%nat -> a.[i] = b.[i]) -> a = b.
Proof. intros Hl Hv. now apply nth_ext with (d := 0) (d' := 0). Qed.

(** X10. The DPOP penalty against plain DPO (same [beta], no smoothing, no
    penalty) on the same vectors.  [DPOPLoss] returns the plain loss plus
    [lambda_dpop * max 0 (reference_chosen - policy_chosen)]; the penalty
    of [DPOLoss] enters through the logits.  In both, an example with
    [reference_chosen <= policy_chosen] keeps the plain loss, no loss is
    lowered for non-negative [lambda_dpop] (and [beta]), and the rewards
    are those of plain DPO. *)
Theorem dpop_penalty_raises_loss :
  (forall (self : DPOPLoss.t) h pc pr rc rr dpc dpr drc drr,
      data h pc = Some dpc -> data h pr = Some dpr ->
      data h rc = Some drc -> data h rr = Some drr ->
      length dpr = length dpc -> length drc = length dpc ->
      length drr = length dpc ->
      exists dl dl' dc dr,
        returns
          (DPOLoss.forward (DPOLoss.__init__ (DPOPLoss.beta self) 0 0)
             pc pr rc rr) h dl dc dr
        /\ returns (DPOPLoss.forward self pc pr rc rr) h dl' dc dr
        /\ forall i, (i < length dpc)%nat ->
             dl'.[i]
             = dl.[i] + DPOPLoss.lambda_dpop self * Rmax 0 (drc.[i] - dpc.[i])
             /\ (drc.[i] <= dpc.[i] -> dl'.[i] = dl.[i])
             /\ (0 <= DPOPLoss.lambda_dpop self -> dl.[i] <= dl'.[i]))
  /\ (forall (self : DPOLoss.t) h pc pr rc rr dpc dpr drc drr,
      data h pc = Some dpc -> data h pr = Some dpr ->
      data h rc = Some drc -> data h rr = Some drr ->
      length dpr = length dpc -> length drc = length dpc ->
      length drr = length dpc ->
      DPOLoss.label_smoothing self = 0 ->
      exists dl dl' dc dr,
        returns
          (DPOLoss.forward (DPOLoss.__init__ (DPOLoss.beta self) 0 0)
             pc pr rc rr) h dl dc dr
        /\ returns (DPOLoss.forward self pc pr rc rr) h dl' dc dr
        /\ forall i, (i < length dpc)%nat ->
             (drc.[i] <= dpc.[i] -> dl'.[i] = dl.[i])
             /\ (0 <= DPOLoss.beta self -> 0 <= DPOLoss.lambda_dpop self ->
                 dl.[i] <= dl'.[i])).
Proof.
  split.
  - intros self h pc pr rc rr dpc dpr drc drr Hpc Hpr Hrc Hrr L1 L2 L3.
    destruct (DPOLoss_run h pc pr rc rr dpc dpr drc drr
                Hpc Hpr Hrc Hrr L1 L2 L3
                (DPOLoss.__init__ (DPOPLoss.beta self) 0 0))
      as (dl & dc & dr & Hret & Hl & Hc & Hr & Hv).
    destruct (DPOPLoss_run h pc pr rc rr dpc dpr drc drr
                Hpc Hpr Hrc Hrr L1 L2 L3 self)
      as (dl' & dc' & dr' & Hret' & Hl' & Hc' & Hr' & Hv').
    cbn [DPOLoss.beta DPOLoss.label_smoothing DPOLoss.lambda_dpop] in Hv.
    assert (Ec : dc' = dc).
    { apply same_values; [congruence|]. intros i Hi.
      destruct (Hv i ltac:(lia)) as (_ & E2 & _).
      destruct (Hv' i ltac:(lia)) as (_ & E2' & _). cbv zeta in *.
      now rewrite E2, E2'. }
    assert (Er : dr' = dr).
    { apply same_values; [congruence|]. intros i Hi.
      destruct (Hv i ltac:(lia)) as (_ & _ & E3).
      destruct (Hv' i ltac:(lia)) as (_ & _ & E3'). cbv zeta in *.
      now rewrite E3, E3'. }
    subst dc' dr'. exists dl, dl', dc, dr.
    split; [exact Hret|]. split; [exact Hret'|].
    intros i Hi. destruct (Hv i Hi) as (E1 & _).
    destruct (Hv' i Hi) as (E1' & _). cbv zeta in *.
    assert (E : dl'.[i]
                = dl.[i] + DPOPLoss.lambda_dpop self * Rmax 0 (drc.[i] - dpc.[i])).
    { rewrite E1, E1', (Rmax_comm (drc.[i] - dpc.[i]) 0).
      match goal with
      | |- context [F.log_sigmoid (?b * (?l + - 0 * ?m))] =>
          replace (l + - 0 * m) with l by ring
      end.
      ring. }
    split; [exact E|]. split.
    + intros Hle. rewrite E, Rmax_left by lra. ring.
    + intros Hlam. rewrite E.
      pose proof (Rmax_l 0 (drc.[i] - dpc.[i])). nra.
  - intros self h pc pr rc rr dpc dpr drc drr Hpc Hpr Hrc Hrr L1 L2 L3 Hs.
    destruct (DPOLoss_run h pc pr rc rr dpc dpr drc drr
                Hpc Hpr Hrc Hrr L1 L2 L3
                (DPOLoss.__init__ (DPOLoss.beta self) 0 0))
      as (dl & dc & dr & Hret & Hl & Hc & Hr & Hv).
    destruct (DPOLoss_run h pc pr rc rr dpc dpr drc drr
                Hpc Hpr Hrc Hrr L1 L2 L3 self)
      as (dl' & dc' & dr' & Hret' & Hl' & Hc' & Hr' & Hv').
    cbn [DPOLoss.beta DPOLoss.label_smoothing DPOLoss.lambda_dpop] in Hv.
    assert (Ec : dc' = dc).
    { apply same_values; [congruence|]. intros i Hi.
      destruct (Hv i ltac:(lia)) as (_ & E2 & _).
      destruct (Hv' i ltac:(lia)) as (_ & E2' & _). cbv zeta in *.
      now rewrite E2, E2'. }
    assert (Er : dr' = dr).
    { apply same_values; [congruence|]. intros i Hi.
      destruct (Hv i ltac:(lia)) as (_ & _ & E3).
      destruct (Hv' i ltac:(lia)) as (_ & _ & E3'). cbv zeta in *.
      now rewrite E3, E3'. }
    subst dc' dr'. exists dl, dl', dc, dr.
    split; [exact Hret|]. split; [exact Hret'|].
    intros i Hi. destruct (Hv i Hi) as (E1 & _).
    destruct (Hv' i Hi) as (E1' & _). cbv zeta in *.
    rewrite E1, E1', Hs.
    set (L := dpc.[i] - dpr.[i] - (drc.[i] - drr.[i])).
    set (P := Rmax 0 (drc.[i] - dpc.[i])).
    replace (L + - 0 * P) with L by ring.
    split.
    + intros Hle. unfold P. rewrite Rmax_left by lra.
      replace (L + - DPOLoss.lambda_dpop self * 0) with L by ring.
      reflexivity.
    + intros Hb Hlam.
      assert (HP : 0 <= P) by apply Rmax_l.
      assert (HlP : 0 <= DPOLoss.lambda_dpop self * P)
        by (apply Rmult_le_pos; assumption).
      assert (H : F.log_sigmoid
                    (DPOLoss.beta self * (L + - DPOLoss.lambda_dpop self * P))
                  <= F.log_sigmoid (DPOLoss.beta self * L))
        by (apply log_sigmoid_le; nra).
      lra.
Qed.

Lemma dpop_penalty_raises_loss_witness :
  exists dl dl' dc dr,
    returns
      (DPOLoss.forward (DPOLoss.__init__ (1 / 10) 0 0) ex_pc ex_pr ex_rc ex_rr)
      ex2_store dl dc dr
    /\ returns
         (DPOPLoss.forward (DPOPLoss.__init__ (1 / 10) 0 5)
            ex_pc ex_pr ex_rc ex_rr) ex2_store dl' dc dr
    /\ dl'.[0] = dl.[0]
    /\ dl'.[1] = dl.[1] + 5 * Rmax 0 (-1 - -2).
Proof.
  destruct (proj1 dpop_penalty_raises_loss (DPOPLoss.__init__ (1 / 10) 0 5)
              ex2_store ex_pc ex_pr ex_rc ex_rr
              [-1; -2] [-2; -1] [-3 / 2; -1] [-5 / 2; -2]
              eq_refl eq_refl eq_refl eq_refl eq_refl eq_refl eq_refl)
    as (dl & dl' & dc & dr & Hret & Hret' & Hv).
  exists dl, dl', dc, dr. split; [exact Hret|]. split; [exact Hret'|].
  split.
  - apply (proj1 (proj2 (Hv 0%nat ltac:(simpl; lia)))). simpl. lra.
  - exact (proj1 (Hv 1%nat ltac:(simpl; lia))).
Defined.

(** X11. [RPOLoss] is [DPOLoss] (same [beta] and [label_smoothing], no
    penalty) plus [rpo_alpha * nll_loss], with the same rewards; with
    [rpo_alpha = 0] the two losses coincide. *)
Theorem rpo_is_dpo_plus_nll (self : RPOLoss.t) h pc pr rc rr nll
    dpc dpr drc drr dnll :
  data h pc = Some dpc -> data h pr = Some dpr ->
  data h rc = Some drc -> data h rr = Some drr ->
  data h nll = Some dnll ->
  length dpr = length dpc -> length drc = length dpc ->
  length drr = length dpc -> length dnll = length dpc ->
  exists dl dl' dc dr,
    returns
      (DPOLoss.forward
         (DPOLoss.__init__ (RPOLoss.beta self) (RPOLoss.label_smoothing self) 0)
         pc pr rc rr) h dl dc dr
    /\ returns (RPOLoss.forward self pc pr rc rr nll) h dl' dc dr
    /\ (forall i, (i < length dpc)%nat ->
          dl'.[i] = dl.[i] + RPOLoss.rpo_alpha self * dnll.[i])
    /\ (RPOLoss.rpo_alpha self = 0 -> dl' = dl).
Proof.
  intros Hpc Hpr Hrc Hrr Hnll L1 L2 L3 L4.
  destruct (DPOLoss_run h pc pr rc rr dpc dpr drc drr
              Hpc Hpr Hrc Hrr L1 L2 L3
              (DPOLoss.__init__ (RPOLoss.beta self)
                 (RPOLoss.label_smoothing self) 0))
    as (dl & dc & dr & Hret & Hl & Hc & Hr & Hv).
  destruct (RPOLoss_run h pc pr rc rr dpc dpr drc drr
              Hpc Hpr Hrc Hrr L1 L2 L3 nll dnll Hnll L4 self)
    as (dl' & dc' & dr' & Hret' & Hl' & Hc' & Hr' & Hv').
  cbn [DPOLoss.beta DPOLoss.label_smoothing DPOLoss.lambda_dpop] in Hv.
  assert (Ec : dc' = dc).
  { apply same_values; [congruence|]. intros i Hi.
    destruct (Hv i ltac:(lia)) as (_ & E2 & _).
    destruct (Hv' i ltac:(lia)) as (_ & E2' & _). cbv zeta in *.
    now rewrite E2, E2'. }
  assert (Er : dr' = dr).
  { apply same_values; [congruence|]. intros i Hi.
    destruct (Hv i ltac:(lia)) as (_ & _ & E3).
    destruct (Hv' i ltac:(lia)) as (_ & _ & E3'). cbv zeta in *.
    now rewrite E3, E3'. }
  subst dc' dr'. exists dl, dl', dc, dr.
  split; [exact Hret|]. split; [exact Hret'|].
  assert (E : forall i, (i < length dpc)%nat ->
                dl'.[i] = dl.[i] + RPOLoss.rpo_alpha self * dnll.[i]).
  { intros i Hi. destruct (Hv i Hi) as (E1 & _).
    destruct (Hv' i Hi) as (E1' & _). cbv zeta in *. rewrite E1, E1'.
    match goal with
    | |- context [F.log_sigmoid (?b * (?l + - 0 * ?m))] =>
        replace (l + - 0 * m) with l by ring
    end.
    reflexivity. }
  split; [exact E|].
  intros Ha. apply same_values; [congruence|].
  intros i Hi. rewrite E by lia. rewrite Ha. ring.
Qed.

Lemma rpo_is_dpo_plus_nll_witness :
  exists dl dl' dc dr,
    returns
      (DPOLoss.forward (DPOLoss.__init__ (1 / 10) 0 0) ex_pc ex_pr ex_rc ex_rr)
      ex_nll_store dl dc dr
    /\ returns (RPOLoss.forward RPOLoss.default ex_pc ex_pr ex_rc ex_rr ex_nll)
         ex_nll_store dl' dc dr
    /\ dl'.[0] = dl.[0] + 1 * (1 / 2).
Proof.
  destruct (rpo_is_dpo_plus_nll RPOLoss.default ex_nll_store
              ex_pc ex_pr ex_rc ex_rr ex_nll
              [-1] [-2] [-3 / 2] [-5 / 2] [1 / 2]
              eq_refl eq_refl eq_refl eq_refl eq_refl
              eq_refl eq_refl eq_refl eq_refl)
    as (dl & dl' & dc & dr & Hret & Hret' & Hv & _).
  exists dl, dl', dc, dr. split; [exact Hret|]. split; [exact Hret'|].
  exact (Hv 0%nat (Nat.lt_0_succ 0)).
Defined.

(** X12. On an empty batch every [forward] returns three empty vectors
    and raises nothing ([SimPOLoss]: for [beta <> 0]). *)
Theorem empty_batch :
  (forall (self : DPOLoss.t) h pc pr rc rr,
      data h pc = Some [] -> data h pr = Some [] ->
      data h rc = Some [] -> data h rr = Some [] ->
      returns (DPOLoss.forward self pc pr rc rr) h [] [] [])
  /\ (forall (self : DPOPLoss.t) h pc pr rc rr,
      data h pc = Some [] -> data h pr = Some [] ->
      data h rc = Some [] -> data h rr = Some [] ->
      returns (DPOPLoss.forward self pc pr rc rr) h [] [] [])
  /\ (forall (self : RPOLoss.t) h pc pr rc rr nll,
      data h pc = Some [] -> data h pr = Some [] ->
      data h rc = Some [] -> data h rr = Some [] -> data h nll = Some [] ->
      returns (RPOLoss.forward self pc pr rc rr nll) h [] [] [])
  /\ (forall (self : RSOLoss.t) h pc pr rc rr,
      data h pc = Some [] -> data h pr = Some [] ->
      data h rc = Some [] -> data h rr = Some [] ->
      returns (RSOLoss.forward self pc pr rc rr) h [] [] [])
  /\ (forall (self : SimPOLoss.t) h pc pr,
      data h pc = Some [] -> data h pr = Some [] ->
      SimPOLoss.beta self <> 0 ->
      returns (SimPOLoss.forward self pc pr) h [] [] []).
Proof.
  split; [|split; [|split; [|split]]].
  - intros self h pc pr rc rr Hpc Hpr Hrc Hrr.
    destruct (DPOLoss_run h pc pr rc rr [] [] [] []
                Hpc Hpr Hrc Hrr eq_refl eq_refl eq_refl self)
      as (dl & dc & dr & Hret & Hl & Hc & Hr & _).
    apply length_zero_iff_nil in Hl, Hc, Hr. now subst.
  - intros self h pc pr rc rr Hpc Hpr Hrc Hrr.
    destruct (DPOPLoss_run h pc pr rc rr [] [] [] []
                Hpc Hpr Hrc Hrr eq_refl eq_refl eq_refl self)
      as (dl & dc & dr & Hret & Hl & Hc & Hr & _).
    apply length_zero_iff_nil in Hl, Hc, Hr. now subst.
  - intros self h pc pr rc rr nll Hpc Hpr Hrc Hrr Hnll.
    destruct (RPOLoss_run h pc pr rc rr [] [] [] []
                Hpc Hpr Hrc Hrr eq_refl eq_refl eq_refl nll [] Hnll eq_refl self)
      as (dl & dc & dr & Hret & Hl & Hc & Hr & _).
    apply length_zero_iff_nil in Hl, Hc, Hr. now subst.
  - intros self h pc pr rc rr Hpc Hpr Hrc Hrr.
    destruct (RSOLoss_run h pc pr rc rr [] [] [] []
                Hpc Hpr Hrc Hrr eq_refl eq_refl eq_refl self)
      as (dl & dc & dr & Hret & Hl & Hc & Hr & _).
    apply length_zero_iff_nil in Hl, Hc, Hr. now subst.
  - intros self h pc pr Hpc Hpr Hb.
    destruct (SimPOLoss_run self h pc pr [] [] Hpc Hpr eq_refl Hb)
      as (dl & dc & dr & Hret & Hl & Hc & Hr & _).
    apply length_zero_iff_nil in Hl, Hc, Hr. now subst.
Qed.

Lemma empty_batch_witness :
  returns
    (RSOLoss.forward RSOLoss.default
       empty_tensor empty_tensor empty_tensor empty_tensor)
    empty_store [] [] [].
Proof.
  exact (proj1 (proj2 (proj2 (proj2 empty_batch))) RSOLoss.default empty_store
           empty_tensor empty_tensor empty_tensor empty_tensor
           eq_refl eq_refl eq_refl eq_refl).
Defined.

(** ** Broadcasting of values *)

Lemma map2_singleton_r f a y :
  length a = 1%nat -> map2 f a [y] = map (fun x => f x y) a.
Proof. destruct a as [|x [|? ?]]; simpl; intros H; try discriminate; reflexivity. Qed.

Lemma map2_singleton_l f x b :
  length b = 1%nat -> map2 f [x] b = map (f x) b.
Proof. destruct b as [|y [|? ?]]; simpl; intros H; try discriminate; reflexivity. Qed.

Lemma broadcast_one_r f a y :
  broadcast f a [y] = Ok (map (fun x => f x y) a).
Proof.
  unfold broadcast. simpl length.
  destruct (Nat.eqb_spec (length a) 1) as [E|E].
  - now rewrite map2_singleton_r.
  - reflexivity.
Qed.

Lemma broadcast_one_l f x b :
  broadcast f [x] b = Ok (map (f x) b).
Proof.
  unfold broadcast. simpl length.
  destruct (Nat.eqb_spec 1 (length b)) as [E|E].
  - now rewrite map2_singleton_l.
  - reflexivity.
Qed.

Ltac exec_bc :=
  first
    [ erewrite bind_ok by (eapply unop_ok; solve_data)
    | erewrite bind_ok by
        (eapply binop_ok; [solve_data | solve_data | apply broadcast_one_r])
    | erewrite bind_ok by
        (eapply binop_ok; [solve_data | solve_data | apply broadcast_one_l])
    | erewrite bind_ok by
        (eapply binop_ok; [solve_data | solve_data | apply broadcast_same; solve_len])
    | erewrite bind_ok by
        (eapply inplace_ok; [solve_data | solve_data | apply broadcast_to_same; solve_len])
    | erewrite bind_ok by (eapply shape_ok; solve_data)
    | erewrite bind_ok by reflexivity ];
  cbv beta; norm_store.

(** X13. What broadcasting computes: given reference vectors of size 1 and
    policy vectors of one size, [DPOLoss.forward] applies the single
    reference pair to every example. *)
Theorem DPOLoss_single_reference (self : DPOLoss.t) h pc pr rc rr
    dpc dpr (c0 r0 : R) :
  data h pc = Some dpc -> data h pr = Some dpr ->
  data h rc = Some [c0] -> data h rr = Some [r0] ->
  length dpr = length dpc ->
  exists dl dc dr,
    returns (DPOLoss.forward self pc pr rc rr) h dl dc dr
    /\ length dl = length dpc /\ length dc = length dpc /\ length dr = length dpc
    /\ forall i, (i < length dpc)%nat ->
         let logits :=
           (dpc.[i] - dpr.[i]) - (c0 - r0)
           - DPOLoss.lambda_dpop self * Rmax 0 (c0 - dpc.[i]) in
         dl.[i]
         = - F.log_sigmoid (DPOLoss.beta self * logits)
             * (1 - DPOLoss.label_smoothing self)
           - F.log_sigmoid (- DPOLoss.beta self * logits)
             * DPOLoss.label_smoothing self
         /\ dc.[i] = DPOLoss.beta self * (dpc.[i] - c0)
         /\ dr.[i] = DPOLoss.beta self * (dpr.[i] - r0).
Proof.
  intros Hpc Hpr Hrc Hrr L1. unfold DPOLoss.forward.
  do 3 eexists. split.
  { unfold returns; do 4 eexists; split; [repeat exec_bc; reflexivity|].
    split; [solve_data|]; split; [solve_data|]; solve_data. }
  cbn [map2 map].
  repeat split; try solve_len.
  all: nth_simpl.
  - match goal with
    | |- context [?a - DPOLoss.lambda_dpop self * ?m] =>
        replace (a - DPOLoss.lambda_dpop self * m)
          with (a + - DPOLoss.lambda_dpop self * m) by ring
    end.
    reflexivity.
  - reflexivity.
  - reflexivity.
Qed.

Lemma DPOLoss_single_reference_witness :
  exists dl dc dr,
    returns (DPOLoss.forward DPOLoss.default ex_pc ex_pr ex_rc ex_rr)
      ref1_store dl dc dr
    /\ length dl = 2%nat
    /\ dc.[0] = 1 / 10 * (-1 - -3 / 2) /\ dc.[1] = 1 / 10 * (-2 - -3 / 2).
Proof.
  destruct (DPOLoss_single_reference DPOLoss.default ref1_store
              ex_pc ex_pr ex_rc ex_rr [-1; -2] [-2; -1] (-3 / 2) (-5 / 2)
              eq_refl eq_refl eq_refl eq_refl eq_refl)
    as (dl & dc & dr & Hret & Hl & _ & _ & Hv).
  exists dl, dc, dr. split; [exact Hret|]. split; [exact Hl|]. split.
  - exact (proj1 (proj2 (Hv 0%nat ltac:(simpl; lia)))).
  - exact (proj1 (proj2 (Hv 1%nat ltac:(simpl; lia)))).
Defined.

(** X14. With [beta = 0], [SimPOLoss.forward] raises on every input: the
    size error of the subtraction when the sizes are incompatible,
    [ZeroDivisionError] otherwise. *)
Theorem SimPOLoss_zero_beta_always_raises (self : SimPOLoss.t) h pc pr
    dpc dpr :
  data h pc = Some dpc -> data h pr = Some dpr ->
  SimPOLoss.beta self = 0 ->
  (compatible (length dpc) (length dpr) ->
   SimPOLoss.forward self pc pr h = Err ZeroDivisionError)
  /\ (~ compatible (length dpc) (length dpr) ->
      SimPOLoss.forward self pc pr h
      = Err (SizeMismatch (length dpc) (length dpr))).
Proof.
  intros Hpc Hpr Hb. unfold SimPOLoss.forward, sub.
  pose proof (binop_shape Rminus pc pr h dpc dpr Hpc Hpr) as S.
  unfold compatible.
  destruct (broadcast_shapes (length dpc) (length dpr)) as [s|e] eqn:Hs.
  - destruct S as (d & E & _). rewrite (bind_ok _ _ _ _ _ E).
    split.
    + intros _. apply bind_err. rewrite Hb. apply float_div_zero.
    + intros Hn. exfalso. unfold broadcast_shapes in Hs.
      destruct (Nat.eqb_spec (length dpc) (length dpr)); [tauto|].
      destruct (Nat.eqb_spec (length dpc) 1); [tauto|].
      destruct (Nat.eqb_spec (length dpr) 1); [tauto|]. discriminate.
  - rewrite (bind_err _ _ _ _ S). unfold broadcast_shapes in Hs.
    destruct (Nat.eqb_spec (length dpc) (length dpr)); [discriminate|].
    destruct (Nat.eqb_spec (length dpc) 1); [discriminate|].
    destruct (Nat.eqb_spec (length dpr) 1); [discriminate|].
    injection Hs as <-. split; [tauto | reflexivity].
Qed.

Lemma SimPOLoss_zero_beta_always_raises_witness :
  SimPOLoss.forward (SimPOLoss.__init__ 0 (1 / 2) 0) ex_pc ex_pr bc_store
  = Err ZeroDivisionError.
Proof.
  apply (proj1 (SimPOLoss_zero_beta_always_raises
                  (SimPOLoss.__init__ 0 (1 / 2) 0) bc_store ex_pc ex_pr
                  [-1] [-2; -3] eq_refl eq_refl eq_refl)).
  right. left. reflexivity.
Defined.

Lemma log_sigmoid_lt x y : x < y -> F.log_sigmoid x < F.log_sigmoid y.
Proof.
  intros Hlt. unfold F.log_sigmoid.
  assert (H : ln (1 + exp (- y)) < ln (1 + exp (- x))).
  { apply ln_increasing.
    - pose proof (exp_pos (- y)). lra.
    - assert (exp (- y) < exp (- x)) by (apply exp_increasing; lra). lra. }
  lra.
Qed.

Lemma log_sigmoid_above_half x : - ln 2 < F.log_sigmoid x <-> 0 < x.
Proof.
  rewrite <- log_sigmoid_0. split.
  - intros H. destruct (Rlt_le_dec 0 x) as [Hx|Hx]; [exact Hx|].
    pose proof (log_sigmoid_le x 0 Hx). lra.
  - apply log_sigmoid_lt.
Qed.

(** X15. Without label smoothing a loss is below its value at margin 0
    exactly when the chosen reward exceeds the rejected reward: below
    [ln 2] for [DPOLoss] without penalty, below [1] for [RSOLoss], and
    below [ln 2] exactly when the margin exceeds [gamma] for [SimPOLoss]. *)
Theorem loss_below_chance_iff_margin :
  (forall (self : DPOLoss.t) h pc pr rc rr dpc dpr drc drr,
      data h pc = Some dpc -> data h pr = Some dpr ->
      data h rc = Some drc -> data h rr = Some drr ->
      length dpr = length dpc -> length drc = length dpc ->
      length drr = length dpc ->
      DPOLoss.label_smoothing self = 0 -> DPOLoss.lambda_dpop self = 0 ->
      exists dl dc dr,
        returns (DPOLoss.forward self pc pr rc rr) h dl dc dr
        /\ forall i, (i < length dpc)%nat ->
             (dl.[i] < ln 2 <-> dr.[i] < dc.[i]))
  /\ (forall (self : RSOLoss.t) h pc pr rc rr dpc dpr drc drr,
      data h pc = Some dpc -> data h pr = Some dpr ->
      data h rc = Some drc -> data h rr = Some drr ->
      length dpr = length dpc -> length drc = length dpc ->
      length drr = length dpc ->
      exists dl dc dr,
        returns (RSOLoss.forward self pc pr rc rr) h dl dc dr
        /\ forall i, (i < length dpc)%nat ->
             (dl.[i] < 1 <-> dr.[i] < dc.[i]))
  /\ (forall (self : SimPOLoss.t) h pc pr dpc dpr,
      data h pc = Some dpc -> data h pr = Some dpr ->
      length dpr = length dpc ->
      SimPOLoss.beta self <> 0 -> SimPOLoss.label_smoothing self = 0 ->
      exists dl dc dr,
        returns (SimPOLoss.forward self pc pr) h dl dc dr
        /\ forall i, (i < length dpc)%nat ->
             (dl.[i] < ln 2 <-> dr.[i] + SimPOLoss.gamma self < dc.[i])).
Proof.
  split; [|split].
  - intros self h pc pr rc rr dpc dpr drc drr Hpc Hpr Hrc Hrr L1 L2 L3 Hs Hz.
    destruct (DPOLoss_margin self h pc pr rc rr dpc dpr drc drr
                Hpc Hpr Hrc Hrr L1 L2 L3 Hz)
      as (dl & dc & dr & Hret & Hv).
    exists dl, dc, dr. split; [exact Hret|].
    intros i Hi. pose proof (Hv i Hi) as E. cbv zeta in E. rewrite E, Hs.
    pose proof (log_sigmoid_above_half (dc.[i] - dr.[i])) as [H1 H2].
    split; intros H.
    + assert (0 < dc.[i] - dr.[i]) by (apply H1; lra). lra.
    + assert (- ln 2 < F.log_sigmoid (dc.[i] - dr.[i])) by (apply H2; lra). lra.
  - intros self h pc pr rc rr dpc dpr drc drr Hpc Hpr Hrc Hrr L1 L2 L3.
    destruct (RSOLoss_margin
                self h pc pr rc rr dpc dpr drc drr
                Hpc Hpr Hrc Hrr L1 L2 L3)
      as (dl & dc & dr & Hret & Hv).
    exists dl, dc, dr. split; [exact Hret|].
    intros i Hi. rewrite (Hv i Hi). unfold Rmax.
    destruct (Rle_dec 0 (1 - (dc.[i] - dr.[i]))); split; intros; lra.
  - intros self h pc pr dpc dpr Hpc Hpr L1 Hb Hs.
    destruct (SimPOLoss_margin
                self h pc pr dpc dpr Hpc Hpr L1 Hb)
      as (dl & dc & dr & Hret & Hv).
    exists dl, dc, dr. split; [exact Hret|].
    intros i Hi. pose proof (Hv i Hi) as E. cbv zeta in E. rewrite E, Hs.
    pose proof (log_sigmoid_above_half
                  (dc.[i] - dr.[i] - SimPOLoss.gamma self)) as [H1 H2].
    split; intros H.
    + assert (0 < dc.[i] - dr.[i] - SimPOLoss.gamma self) by (apply H1; lra). lra.
    + assert (- ln 2 < F.log_sigmoid (dc.[i] - dr.[i] - SimPOLoss.gamma self))
        by (apply H2; lra).
      lra.
Qed.

Lemma loss_below_chance_iff_margin_witness :
  exists dl dc dr,
    returns (RSOLoss.forward RSOLoss.default ex_pc ex_pr ex_rc ex_rr)
      ex2_store dl dc dr
    /\ (dl.[1] < 1 <-> dr.[1] < dc.[1]).
Proof.
  destruct (proj1 (proj2 loss_below_chance_iff_margin) RSOLoss.default
              ex2_store ex_pc ex_pr ex_rc ex_rr
              [-1; -2] [-2; -1] [-3 / 2; -1] [-5 / 2; -2]
              eq_refl eq_refl eq_refl eq_refl eq_refl eq_refl eq_refl)
    as (dl & dc & dr & Hret & Hv).
  exists dl, dc, dr. split; [exact Hret|].
  exact (Hv 1%nat ltac:(simpl; lia)).
Defined.
